(** * clean-pattern: the "register user" slice

  A shallow embedding of the TypeScript sources

  - [src/app/user/ports.ts]                 (the three ports),
  - [src/app/user/usecases/RegisterUser.ts] (the use-case),
  - [src/adapters/user/UserRepo.sql.ts], [src/adapters/user/EmailSender.impl.ts],
  - [src/user/migrations] (the [users] table), [src/user/http.ts],
    [src/user/events.ts], [src/user/jobs.ts],
  - [src/tests/register_user.test.ts] (the in-memory fakes),

  followed by the properties the specification states about them.

  Conventions of the embedding.
  - A JavaScript string is a [string]; an [ascii] stands for one code unit
    in the range U+0000..U+00FF.
  - An [async] function is run to completion before the next one starts:
    a port call is a state transformer that either returns or throws.
    Requests do not interleave, but for [run_overtaken].
  - A JavaScript [number] that counts hours is a [Js.number].
  - The adapter ([Sql]) talks to the database through [DB.exec],
    [DB.queryRow] and [DB.rawExec] ([database]); what the server makes of a
    statement is [Db.execute].  The server refuses a statement for a broken
    unique index, for a text it cannot store (U+0000, a value of a
    gigabyte), for an interval or a timestamp out of range ([Pg]), as
    PostgreSQL 15 does; a refused statement rejects the call and leaves
    the table as it is.
  - [NOW()] is the [now] field of the database world, in microseconds since
    2000-01-01, as PostgreSQL counts them.
  - [scripts/seed.ts] is embedded ([Seed]), but is no step of the histories
    ([run_ops]) considered below. *)

From Stdlib Require Import ZArith Ascii String Bool List.
From stdpp Require Import gmap strings list pretty.

Local Open Scope string_scope.

(* ===================================================================== *)
(** ** JavaScript string primitives used by the use-case                  *)
(* ===================================================================== *)

Module Js.

(** [WhiteSpace] and [LineTerminator] code units below U+0100:
    TAB, LF, VT, FF, CR, SP and NBSP. *)
Definition is_white_space (c : ascii) : bool :=
  let n := nat_of_ascii c in
  ((9 <=? n)%nat && (n <=? 13)%nat) || (n =? 32)%nat || (n =? 160)%nat.

Fixpoint trimStart (s : string) : string :=
  match s with
  | EmptyString => EmptyString
  | String c s' => if is_white_space c then trimStart s' else s
  end.

Fixpoint trimEnd (s : string) : string :=
  match s with
  | EmptyString => EmptyString
  | String c s' =>
      match trimEnd s', is_white_space c with
      | EmptyString, true => EmptyString
      | t, _ => String c t
      end
  end.

(** [String.prototype.trim] *)
Definition trim (s : string) : string := trimEnd (trimStart s).

(** Lower-case mapping of one code unit: A-Z, and U+00C0..U+00DE
    without the multiplication sign U+00D7. *)
Definition lower_unit (c : ascii) : ascii :=
  let n := nat_of_ascii c in
  if ((65 <=? n)%nat && (n <=? 90)%nat)
     || ((192 <=? n)%nat && (n <=? 222)%nat && negb (n =? 215)%nat)
  then ascii_of_nat (n + 32) else c.

Fixpoint map_units (f : ascii -> ascii) (s : string) : string :=
  match s with
  | EmptyString => EmptyString
  | String c s' => String (f c) (map_units f s')
  end.

(** [String.prototype.toLowerCase] *)
Definition toLowerCase (s : string) : string := map_units lower_unit s.

(** A [number]: an integer, a finite number with a fraction, [NaN] or an
    infinity.  Of a number with a fraction only this is kept: what
    PostgreSQL reads when the number is printed in front of " hours", an
    interval in microseconds or the SQLSTATE of its error (it reads no
    interval in "1e-7 hours").  That reading is not worked out here;
    whatever holds below for every [number] holds for every such reading. *)
Inductive number : Type :=
| Int (z : Z)
| Fractional (hours_read : Z + string)
| NaN
| Infinity
| NegInfinity.

End Js.

(* ===================================================================== *)
(** ** Regular expressions, as far as the email pattern needs them        *)
(* ===================================================================== *)

Module Regex.

Inductive regex : Type :=
| Void                                   (* matches nothing *)
| Eps                                    (* matches the empty string *)
| Class (negated : bool) (cs : list ascii) (* [abc] and [^abc] *)
| Cat (r1 r2 : regex)
| Alt (r1 r2 : regex)
| Star (r : regex).

(** a literal character, and the postfix [+] *)
Definition Lit (c : ascii) : regex := Class false [c].
Definition Plus (r : regex) : regex := Cat r (Star r).

Definition in_class (negated : bool) (cs : list ascii) (c : ascii) : bool :=
  xorb negated (existsb (Ascii.eqb c) cs).

(** What it means for a whole string to match. *)
Inductive Matches : regex -> string -> Prop :=
| MEps : Matches Eps ""
| MClass negated cs c :
    in_class negated cs c = true -> Matches (Class negated cs) (String c "")
| MCat r1 r2 s1 s2 :
    Matches r1 s1 -> Matches r2 s2 -> Matches (Cat r1 r2) (s1 +:+ s2)
| MAltL r1 r2 s : Matches r1 s -> Matches (Alt r1 r2) s
| MAltR r1 r2 s : Matches r2 s -> Matches (Alt r1 r2) s
| MStarNil r : Matches (Star r) ""
| MStarApp r s1 s2 :
    Matches r s1 -> Matches (Star r) s2 -> Matches (Star r) (s1 +:+ s2).

(** The matcher: Brzozowski derivatives. *)
Fixpoint nullable (r : regex) : bool :=
  match r with
  | Void => false
  | Eps => true
  | Class _ _ => false
  | Cat r1 r2 => nullable r1 && nullable r2
  | Alt r1 r2 => nullable r1 || nullable r2
  | Star _ => true
  end.

Fixpoint deriv (c : ascii) (r : regex) : regex :=
  match r with
  | Void => Void
  | Eps => Void
  | Class negated cs => if in_class negated cs c then Eps else Void
  | Cat r1 r2 =>
      if nullable r1
      then Alt (Cat (deriv c r1) r2) (deriv c r2)
      else Cat (deriv c r1) r2
  | Alt r1 r2 => Alt (deriv c r1) (deriv c r2)
  | Star r1 => Cat (deriv c r1) (Star r1)
  end.

(** [full_match r s]: the anchored pattern [^r$] (no flags) accepts [s]. *)
Fixpoint full_match (r : regex) (s : string) : bool :=
  match s with
  | EmptyString => nullable r
  | String c s' => full_match (deriv c r) s'
  end.

End Regex.

(* ===================================================================== *)
(** ** Thrown values, and programs that await port calls                  *)
(* ===================================================================== *)

(** What a rejected promise carries: a JavaScript [new Error(message)], the
    database's report that an INSERT broke the named unique index (SQLSTATE
    23505), or its report of another error, by SQLSTATE. *)
Inductive thrown : Type :=
| Error (message : string)
| UniqueViolation (index : string)
| DatabaseError (sqlstate : string).

Inductive outcome (A : Type) : Type :=
| Returned (a : A)
| Threw (e : thrown).
Arguments Returned {A} a.
Arguments Threw {A} e.

(** A program over a signature of calls [C] with answers [R]: it returns,
    throws, or awaits a call and goes on with the answer. *)
Inductive Prog (C : Type) (R : C -> Type) (A : Type) : Type :=
| Ret (a : A)
| Throw (e : thrown)
| Await (c : C) (k : R c -> Prog C R A).
Arguments Ret {C R A} a.
Arguments Throw {C R A} e.
Arguments Await {C R A} c k.

Fixpoint bind {C R A B} (p : Prog C R A) (f : A -> Prog C R B) : Prog C R B :=
  match p with
  | Ret a => f a
  | Throw e => Throw e
  | Await c k => Await c (fun r => bind (k r) f)
  end.

Definition await {C R} (c : C) : Prog C R (R c) := Await c Ret.

Declare Scope prog_scope.
Delimit Scope prog_scope with prog.
Notation "x <- p ;; q" := (bind p (fun x => q))
  (at level 100, p at next level, right associativity) : prog_scope.
Notation "p ;;; q" := (bind p (fun _ => q))
  (at level 100, right associativity) : prog_scope.

(** One awaited call, and whether the callee threw. *)
Record Event (C : Type) : Type := Called { call : C; failure : option thrown }.
Arguments Called {C} call failure.
Arguments call {C} e.
Arguments failure {C} e.

(** An implementation of the calls over a world [W]. *)
Definition Handler (C : Type) (R : C -> Type) (W : Type) : Type :=
  forall c : C, W -> outcome (R c) * W.

(** Running a program: the outcome, the final world and the calls made, in
    order.  An error thrown by a callee is not caught: it ends the run. *)
Fixpoint run {C R W A} (h : Handler C R W) (p : Prog C R A) (w : W)
  : outcome A * W * list (Event C) :=
  match p with
  | Ret a => (Returned a, w, [])
  | Throw e => (Threw e, w, [])
  | Await c k =>
      match h c w with
      | (Returned r, w1) =>
          let '(o, w2, tr) := run h (k r) w1 in (o, w2, Called c None :: tr)
      | (Threw e, w1) => (Threw e, w1, [Called c (Some e)])
      end
  end.

Definition result {A W T} (x : outcome A * W * T) : outcome A := x.1.1.
Definition world {A W T} (x : outcome A * W * T) : W := x.1.2.
Definition trace {A W T} (x : outcome A * W * T) : T := x.2.
Definition calls {C} (tr : list (Event C)) : list C := map call tr.

(** No callee threw during the run. *)
Definition no_port_failure {C} (tr : list (Event C)) : bool :=
  forallb (fun e => match failure e with None => true | Some _ => false end) tr.

(** Two calls in flight.  [await] hands control back to the event loop: [p]
    runs up to the answer of its first call, [q] runs from start to end,
    then [p] goes on.  The outcomes of [p] and of [q], and the final world. *)
Definition run_overtaken {C R W A B} (h : Handler C R W)
    (p : Prog C R A) (q : Prog C R B) (w : W) : outcome A * outcome B * W :=
  match p with
  | Ret a => (Returned a, result (run h q w), world (run h q w))
  | Throw e => (Threw e, result (run h q w), world (run h q w))
  | Await c k =>
      match h c w with
      | (Returned r, w1) =>
          (result (run h (k r) (world (run h q w1))),
           result (run h q w1),
           world (run h (k r) (world (run h q w1))))
      | (Threw e, w1) => (Threw e, result (run h q w1), world (run h q w1))
      end
  end.

(* ===================================================================== *)
(** ** src/app/user/ports.ts                                              *)
(* ===================================================================== *)

Record User : Type := mkUser {
  id : string;
  email : string;
  name : option string;
  verified : bool
}.

Inductive PortCall : Type :=
| Create (u : User)
| FindByEmail (email : string)
| DisableUnverifiedOlderThan (hours : Js.number)
| NewId
| SendWelcome (to : string) (name : option string).

Definition PortResp (c : PortCall) : Type :=
  match c with
  | Create _ => unit
  | FindByEmail _ => option User
  | DisableUnverifiedOlderThan _ => Z
  | NewId => string
  | SendWelcome _ _ => unit
  end.

Record UserRepo (W : Type) : Type := {
  create : User -> W -> outcome unit * W;
  findByEmail : string -> W -> outcome (option User) * W;
  disableUnverifiedOlderThan : Js.number -> W -> outcome Z * W
}.
Arguments create {W} _ _ _.
Arguments findByEmail {W} _ _ _.
Arguments disableUnverifiedOlderThan {W} _ _ _.

Record IdGen (W : Type) : Type := { newId : W -> outcome string * W }.
Arguments newId {W} _ _.

Record EmailSender (W : Type) : Type := {
  sendWelcome : string -> option string -> W -> outcome unit * W
}.
Arguments sendWelcome {W} _ _ _ _.

(** The constructor argument of the use-case. *)
Record Deps (W : Type) : Type := {
  repo : UserRepo W;
  idgen : IdGen W;
  mail : EmailSender W
}.
Arguments repo {W} _.
Arguments idgen {W} _.
Arguments mail {W} _.

Definition ports {W} (deps : Deps W) : Handler PortCall PortResp W :=
  fun c =>
    match c as c0 return W -> outcome (PortResp c0) * W with
    | Create u => create (repo deps) u
    | FindByEmail e => findByEmail (repo deps) e
    | DisableUnverifiedOlderThan h => disableUnverifiedOlderThan (repo deps) h
    | NewId => newId (idgen deps)
    | SendWelcome to nm => sendWelcome (mail deps) to nm
    end.

(* ===================================================================== *)
(** ** src/app/user/usecases/RegisterUser.ts                              *)
(* ===================================================================== *)

Module RegisterUser.
Import Regex.

Record RegisterInput : Type := { input_email : string; input_name : option string }.
Definition RegisterOutput : Type := User.

(** [/^[^@]+@[^@]+\.[^@]+$/] *)
Definition email_pattern : regex :=
  Cat (Plus (Class true ["@"%char]))
 (Cat (Lit "@")
 (Cat (Plus (Class true ["@"%char]))
 (Cat (Lit ".")
      (Plus (Class true ["@"%char]))))).

(** [input.email.trim().toLowerCase()] *)
Definition normalize (raw : string) : string := Js.toLowerCase (Js.trim raw).

(** The email a port call is given, if it is given one, is [n]. *)
Definition carries_email (n : string) (c : PortCall) : Prop :=
  match c with
  | FindByEmail e => e = n
  | Create u => email u = n
  | SendWelcome to _ => to = n
  | DisableUnverifiedOlderThan _ | NewId => True
  end.

Definition exec (input : RegisterInput) : Prog PortCall PortResp RegisterOutput :=
  (let email := normalize (input_email input) in
   if negb (full_match email_pattern email) then Throw (Error "INVALID_EMAIL")
   else
     existing <- await (FindByEmail email) ;;
     match existing with
     | Some _ => Throw (Error "EMAIL_TAKEN")
     | None =>
         id <- await NewId ;;
         let user := {| id := id; email := email;
                        name := input_name input; verified := false |} in
         await (Create user) ;;;
         await (SendWelcome email (input_name input)) ;;;
         Ret user
     end)%prog.

End RegisterUser.

(* ===================================================================== *)
(** ** What PostgreSQL refuses                                            *)
(* ===================================================================== *)

Module Pg.

(** A [text] holds no U+0000. *)
Fixpoint has_nul (s : string) : bool :=
  match s with
  | EmptyString => false
  | String c s' => Ascii.eqb c "000"%char || has_nul s'
  end.

(** The length of a string in UTF-8: one byte for a unit below U+0080, two
    for one below U+0100. *)
Fixpoint utf8_length (s : string) : N :=
  match s with
  | EmptyString => 0%N
  | String c s' => ((if (N_of_ascii c <? 128)%N then 1 else 2) + utf8_length s')%N
  end.

(** The server reads no value of a gigabyte. *)
Definition max_bytes : N := 1073741823.

Definition too_long (s : string) : bool := (max_bytes <=? utf8_length s)%N.

(** A text the server takes as the parameter of a statement. *)
Definition accepts (s : string) : bool := negb (too_long s) && negb (has_nul s).

(** ... and one that may be [null]. *)
Definition accepts_opt (n : option string) : bool :=
  match n with
  | Some s => accepts s
  | None => true
  end.

(** What the server reports when it refuses a text among the parameters of
    a statement: 08P01 (a message it does not read), 22021 (invalid byte
    sequence for encoding "UTF8": 0x00). *)
Definition texts_error (params : list string) : option thrown :=
  if existsb too_long params then Some (DatabaseError "08P01")
  else if existsb has_nul params then Some (DatabaseError "22021")
  else None.

(** A [bigint], the microseconds of an [interval]. *)
Definition INT64_MAX : Z := 9223372036854775807.

Definition is_int64 (z : Z) : bool :=
  (- INT64_MAX - 1 <=? z)%Z && (z <=? INT64_MAX)%Z.

(** The range of [timestamptz], in microseconds since 2000-01-01:
    from 4714-11-24 BC up to, and without, 294277-01-01. *)
Definition MIN_TIMESTAMP : Z := -211813488000000000.
Definition END_TIMESTAMP : Z := 9223371331200000000.

Definition is_timestamp (t : Z) : bool :=
  (MIN_TIMESTAMP <=? t)%Z && (t <? END_TIMESTAMP)%Z.

(** [t - iv] for a [timestamptz] and an [interval] of hours: 22008
    (timestamp out of range) when the difference is no timestamp. *)
Definition timestamp_minus (t iv : Z) : outcome Z :=
  if is_timestamp (t - iv) then Returned (t - iv)%Z else Threw (DatabaseError "22008").

End Pg.

(* ===================================================================== *)
(** ** src/user/db.ts and src/user/migrations: the [users] table          *)
(* ===================================================================== *)

Module Db.

(** One row of
    [CREATE TABLE users (id TEXT PRIMARY KEY, email TEXT UNIQUE NOT NULL,
     name TEXT, verified BOOLEAN NOT NULL DEFAULT FALSE,
     created_at TIMESTAMPTZ NOT NULL DEFAULT NOW())]. *)
Record Row : Type := mkRow {
  row_id : string;
  row_email : string;
  row_name : option string;
  row_verified : bool;
  row_created_at : Z
}.

Definition set_verified (b : bool) (r : Row) : Row :=
  {| row_id := row_id r; row_email := row_email r; row_name := row_name r;
     row_verified := b; row_created_at := row_created_at r |}.

(** The text parameters of the INSERT. *)
Definition insert_params (i e : string) (n : option string) : list string :=
  match n with
  | Some s => [i; e; s]
  | None => [i; e]
  end.

(** [INSERT INTO users (id, email, name, verified) VALUES (...)] at time
    [now]: refused when a text is refused, when the primary key or the
    unique email is already stored; otherwise the row is added with
    [created_at] defaulting to [now].  A refused INSERT leaves the table. *)
Definition insert_user (i e : string) (n : option string) (v : bool)
    (now : Z) (t : list Row) : outcome unit * list Row :=
  match Pg.texts_error (insert_params i e n) with
  | Some x => (Threw x, t)
  | None =>
      if existsb (fun r => String.eqb (row_id r) i) t
      then (Threw (UniqueViolation "users_pkey"), t)
      else if existsb (fun r => String.eqb (row_email r) e) t
      then (Threw (UniqueViolation "users_email_key"), t)
      else (Returned tt, (t ++ [mkRow i e n v now])%list)
  end.

(** [SELECT ... FROM users WHERE email = e], first row or none. *)
Definition select_by_email (e : string) (t : list Row) : option Row :=
  find (fun r => String.eqb (row_email r) e) t.

(** [UPDATE users SET ... WHERE ...] *)
Definition update_where (cond : Row -> bool) (set : Row -> Row)
    (t : list Row) : list Row :=
  map (fun r => if cond r then set r else r) t.

(** [($1 || ' hours')::interval] for the number [hours], in microseconds.
    The number reaches the server as the text JavaScript prints for it:
    "NaN hours", "Infinity hours" and "1e+21 hours" are no intervals (22007,
    invalid input syntax); hours that are no [bigint] of microseconds are
    22015 (interval field value out of range); a number with a fraction
    comes with what the server reads. *)
Definition hours_interval (hours : Js.number) : outcome Z :=
  match hours with
  | Js.Int h =>
      if (1000000000000000000000 <=? Z.abs h)%Z then Threw (DatabaseError "22007")
      else if Pg.is_int64 (h * 3600000000) then Returned (h * 3600000000)%Z
      else Threw (DatabaseError "22015")
  | Js.Fractional (inl iv) => Returned iv
  | Js.Fractional (inr sqlstate) => Threw (DatabaseError sqlstate)
  | Js.NaN | Js.Infinity | Js.NegInfinity => Threw (DatabaseError "22007")
  end.

(** [NOW() - ($1 || ' hours')::interval] *)
Definition threshold (hours : Js.number) (now : Z) : outcome Z :=
  match hours_interval hours with
  | Returned iv => Pg.timestamp_minus now iv
  | Threw x => Threw x
  end.

(** [WHERE verified = FALSE AND created_at < threshold] *)
Definition unverified_before (threshold : Z) (r : Row) : bool :=
  negb (row_verified r) && (row_created_at r <? threshold)%Z.

(** The statements the repository sends, with their parameters:
    - [INSERT INTO users (id, email, name, verified) VALUES ($1, $2, $3, $4)],
    - [SELECT id, email, name, verified FROM users WHERE email = $1],
    - [UPDATE users SET verified = FALSE
        WHERE verified = FALSE AND created_at < NOW() - ($1 || ' hours')::interval]. *)
Inductive Statement : Type :=
| InsertUser (i e : string) (n : option string) (v : bool)
| SelectByEmail (e : string)
| DisableUnverified (hours : Js.number).

(** What the server answers: the rows of the result (the four columns of
    the SELECT) and the rows the statement inserted or updated, which it
    counts in its command tag. *)
Record Answer : Type := { returned : list User; affected : list Row }.

(** The four columns the SELECT reads of a row. *)
Definition selected (r : Row) : User :=
  {| id := row_id r; email := row_email r; name := row_name r;
     verified := row_verified r |}.

(** What the server makes of a statement at time [now]: the answer and the
    table after it, or the error, and then the table stays as it is. *)
Definition execute (s : Statement) (now : Z) (t : list Row)
  : outcome (Answer * list Row) :=
  match s with
  | InsertUser i e n v =>
      match insert_user i e n v now t with
      | (Returned _, t') =>
          Returned ({| returned := []; affected := [mkRow i e n v now] |}, t')
      | (Threw x, _) => Threw x
      end
  | SelectByEmail e =>
      match Pg.texts_error [e] with
      | Some x => Threw x
      | None =>
          Returned
            ({| returned :=
                  map selected (List.filter (fun r => String.eqb (row_email r) e) t);
                affected := [] |}, t)
      end
  | DisableUnverified hours =>
      match threshold hours now with
      | Returned th =>
          Returned
            ({| returned := []; affected := List.filter (unverified_before th) t |},
             update_where (unverified_before th) (set_verified false) t)
      | Threw x => Threw x
      end
  end.

End Db.

(* ===================================================================== *)
(** ** The world of the deployed service                                  *)
(* ===================================================================== *)

(** src/user/events.ts *)
Record SignupEvent : Type := { userID : string; evt_email : string }.

(** What [console.log("[EMAIL] Welcome", { to, name })] prints. *)
Record WelcomeLog : Type := { log_to : string; log_name : option string }.

(** The [users] table, the clock, the console, the events published on the
    [user-signups] topic and the state [G] of the identifier generator. *)
Record World (G : Type) : Type := mkWorld {
  users : list Db.Row;
  now : Z;
  console : list WelcomeLog;
  signups : list SignupEvent;
  ids : G
}.
Arguments mkWorld {G} _ _ _ _ _.
Arguments users {G} _.
Arguments now {G} _.
Arguments console {G} _.
Arguments signups {G} _.
Arguments ids {G} _.

Definition set_users {G} (t : list Db.Row) (w : World G) : World G :=
  mkWorld t (now w) (console w) (signups w) (ids w).
Definition set_now {G} (t : Z) (w : World G) : World G :=
  mkWorld (users w) t (console w) (signups w) (ids w).
Definition set_console {G} (c : list WelcomeLog) (w : World G) : World G :=
  mkWorld (users w) (now w) c (signups w) (ids w).
Definition set_signups {G} (s : list SignupEvent) (w : World G) : World G :=
  mkWorld (users w) (now w) (console w) s (ids w).
Definition set_ids {G} (g : G) (w : World G) : World G :=
  mkWorld (users w) (now w) (console w) (signups w) g.

Definition empty_world {G} (g : G) (t : Z) : World G := mkWorld [] t [] [] g.

(* ===================================================================== *)
(** ** src/adapters/user/UserRepo.sql.ts, EmailSender.impl.ts             *)
(* ===================================================================== *)

(** The methods of [DB] the adapter calls, each with its statement. *)
Inductive DbCall : Type :=
| Exec (s : Db.Statement)        (* DB.exec`...` *)
| QueryRow (s : Db.Statement)    (* DB.queryRow`...` *)
| RawExec (s : Db.Statement).    (* DB.rawExec(..., ...params) *)

(** [exec] and [rawExec] resolve to nothing, [queryRow] to a row or null. *)
Definition DbResp (c : DbCall) : Type :=
  match c with
  | Exec _ => unit
  | QueryRow _ => option User
  | RawExec _ => unit
  end.

(** The database behind [DB]: the server's answer is cut down to what the
    method resolves to; its error rejects the call. *)
Definition database {G} : Handler DbCall DbResp (World G) :=
  fun c w =>
    match c as c0 return outcome (DbResp c0) * World G with
    | Exec s =>
        match Db.execute s (now w) (users w) with
        | Returned (_, t) => (Returned tt, set_users t w)
        | Threw x => (Threw x, w)
        end
    | QueryRow s =>
        match Db.execute s (now w) (users w) with
        | Returned (a, t) => (Returned (head (Db.returned a)), set_users t w)
        | Threw x => (Threw x, w)
        end
    | RawExec s =>
        match Db.execute s (now w) (users w) with
        | Returned (_, t) => (Returned tt, set_users t w)
        | Threw x => (Threw x, w)
        end
    end.

(** The three methods of [UserRepoSQL()]. *)
Module Sql.

Definition create (u : User) : Prog DbCall DbResp unit :=
  await (Exec (Db.InsertUser (id u) (email u) (name u) (verified u))).

Definition findByEmail (e : string) : Prog DbCall DbResp (option User) :=
  (row <- await (QueryRow (Db.SelectByEmail e)) ;;
   Ret (match row with
        | Some row => Some {| id := id row; email := email row; name := name row;
                              verified := verified row |}
        | None => None
        end))%prog.

Definition disableUnverifiedOlderThan (hours : Js.number) : Prog DbCall DbResp Z :=
  (res <- await (RawExec (Db.DisableUnverified hours)) ;;
   (* rawExec returns void; if you want count, use a CTE returning count *)
   Ret 0%Z)%prog.

End Sql.

(** A method, run against the database. *)
Definition on_database {G A} (p : Prog DbCall DbResp A) (w : World G)
  : outcome A * World G :=
  (result (run database p w), world (run database p w)).
Arguments on_database : simpl never.

Definition UserRepoSQL {G} : UserRepo (World G) := {|
  create u := on_database (Sql.create u);
  findByEmail e := on_database (Sql.findByEmail e);
  disableUnverifiedOlderThan hours := on_database (Sql.disableUnverifiedOlderThan hours)
|}.

Definition EmailSenderImpl {G} : EmailSender (World G) := {|
  sendWelcome to nm w :=
    (Returned tt, set_console (console w ++ [{| log_to := to; log_name := nm |}])%list w)
|}.

Section Deployed.

(** [IdGen] is imported from [src/shared/result], which is not embedded
    here: it is a parameter, a generator with a state of its own. *)
Context {G : Type} (next_id : G -> string * G).

Definition SharedIdGen : IdGen (World G) := {|
  newId w := let '(i, g) := next_id (ids w) in (Returned i, set_ids g w)
|}.

(** [{ repo: UserRepoSQL(), id: IdGen, mail: EmailSenderImpl() }] *)
Definition deployed : Deps (World G) :=
  {| repo := UserRepoSQL; idgen := SharedIdGen; mail := EmailSenderImpl |}.

End Deployed.

(* ===================================================================== *)
(** ** src/user/http.ts and src/user/jobs.ts                              *)
(* ===================================================================== *)

(** The delivery layer calls ports and publishes on the topic. *)
Inductive HttpCall : Type :=
| Port (c : PortCall)
| Publish (evt : SignupEvent).

Definition HttpResp (c : HttpCall) : Type :=
  match c with
  | Port c => PortResp c
  | Publish _ => unit
  end.

(** A use-case run from the delivery layer. *)
Fixpoint from_usecase {A} (p : Prog PortCall PortResp A) : Prog HttpCall HttpResp A :=
  match p with
  | Ret a => Ret a
  | Throw e => Throw e
  | Await c k => Await (Port c) (fun r => from_usecase (k r))
  end.

(** The port calls of a delivery-layer handler. *)
Definition port_part {W} (h : Handler HttpCall HttpResp W) : Handler PortCall PortResp W :=
  fun c => h (Port c).

Module Http.
Import RegisterUser.

Definition HttpStatus_Created : Z := 201.

Record RegisterResponse : Type := {
  resp_id : string;
  resp_email : string;
  resp_name : option string;
  resp_verified : bool;
  status : Z
}.

(** [api({ expose: true, method: "POST", path: "/users" }, async (req) => ...)] *)
Definition register (req : RegisterInput) : Prog HttpCall HttpResp RegisterResponse :=
  (user <- from_usecase (exec req) ;;
   await (Publish {| userID := id user; evt_email := email user |}) ;;;
   Ret {| resp_id := id user; resp_email := email user; resp_name := name user;
          resp_verified := verified user; status := HttpStatus_Created |})%prog.

(** [signups.publish(evt)] *)
Definition publish {G} (evt : SignupEvent) (w : World G) : outcome unit * World G :=
  (Returned tt, set_signups (signups w ++ [evt])%list w).

Definition service {G} (next_id : G -> string * G) : Handler HttpCall HttpResp (World G) :=
  fun c =>
    match c as c0 return World G -> outcome (HttpResp c0) * World G with
    | Port c => ports (deployed next_id) c
    | Publish evt => publish evt
    end.

End Http.

Module Events.

(** The subscription [send-welcome-secondary]:
    [await EmailSenderImpl().sendWelcome(evt.email)] *)
Definition send_welcome_secondary (evt : SignupEvent) : Prog PortCall PortResp unit :=
  (await (SendWelcome (evt_email evt) None) ;;; Ret tt)%prog.

End Events.

Module Jobs.

(** [await UserRepoSQL().disableUnverifiedOlderThan(24)] *)
Definition cleanupUnverified : Prog PortCall PortResp unit :=
  (await (DisableUnverifiedOlderThan (Js.Int 24)) ;;; Ret tt)%prog.

End Jobs.

(* ===================================================================== *)
(** ** Histories of the deployed service                                  *)
(* ===================================================================== *)

Inductive Op : Type :=
| Register (input : RegisterUser.RegisterInput)   (* one call of exec *)
| Post (req : RegisterUser.RegisterInput)         (* one POST /users *)
| Deliver (n : nat)                               (* the n-th event reaches the subscriber *)
| Sweep                                           (* one run of the daily job *)
| Tick (t : Z).                                   (* the clock moves to t *)

Definition step {G} (next_id : G -> string * G) (op : Op) (w : World G) : World G :=
  match op with
  | Register input => world (run (ports (deployed next_id)) (RegisterUser.exec input) w)
  | Post req => world (run (Http.service next_id) (Http.register req) w)
  | Deliver n =>
      match signups w !! n with
      | Some evt =>
          world (run (ports (deployed next_id)) (Events.send_welcome_secondary evt) w)
      | None => w
      end
  | Sweep => world (run (ports (deployed next_id)) Jobs.cleanupUnverified w)
  | Tick t => set_now t w
  end.

Definition run_ops {G} (next_id : G -> string * G) (ops : list Op) (w : World G)
  : World G :=
  fold_left (fun w op => step next_id op w) ops w.

(** One run of the adapter's sweep, as a change of the world. *)
Definition sweep {G} (hours : Js.number) (w : World G) : World G :=
  (disableUnverifiedOlderThan UserRepoSQL hours w).2.

(** What holds of a row in every history that starts empty: it is not
    verified, and its email is well-formed, is its own normal form and is
    a text the server takes. *)
Definition stored_ok (r : Db.Row) : Prop :=
  Db.row_verified r = false /\
  Regex.full_match RegisterUser.email_pattern (Db.row_email r) = true /\
  RegisterUser.normalize (Db.row_email r) = Db.row_email r /\
  Pg.accepts (Db.row_email r) = true.

Definition consistent {G} (w : World G) : Prop :=
  NoDup (map Db.row_email (users w)) /\ Forall stored_ok (users w).

(* ===================================================================== *)
(** ** src/tests/register_user.test.ts: the in-memory fakes               *)
(* ===================================================================== *)

Module Test.

(** [class InMemRepo], its [map] keyed by email *)
Definition InMemRepo : UserRepo (gmap string User) := {|
  create u m := (Returned tt, <[email u := u]> m);
  findByEmail e m := (Returned (m !! e), m);
  disableUnverifiedOlderThan _ m := (Returned 0%Z, m)
|}.

Definition IdGen : IdGen (gmap string User) := {|
  newId m := (Returned "id-1", m)
|}.

Definition Mail : EmailSender (gmap string User) := {|
  sendWelcome _ _ m := (Returned tt, m)
|}.

Definition deps : Deps (gmap string User) :=
  {| repo := InMemRepo; idgen := IdGen; mail := Mail |}.

(** The same generator, [{ newId: () => "id-1" }], for the deployed service. *)
Definition next_id (g : unit) : string * unit := ("id-1", g).

(** A generator that never repeats itself: id-0, id-1, id-2, ... *)
Definition fresh_id (n : nat) : string * nat := ("id-" +:+ pretty n, S n).

End Test.

(* ===================================================================== *)
(** ** The email format, in words                                         *)
(* ===================================================================== *)

Module EmailFormat.

Fixpoint no_at (s : string) : bool :=
  match s with
  | EmptyString => true
  | String c s' => negb (Ascii.eqb c "@") && no_at s'
  end.

(** one or more characters, none of them an at sign *)
Definition part (s : string) : Prop := s <> "" /\ no_at s = true.

(** [local @ domain . tld], each a [part] *)
Definition well_formed (e : string) : Prop :=
  exists l d t, e = l +:+ "@" +:+ d +:+ "." +:+ t /\ part l /\ part d /\ part t.

End EmailFormat.

(* ===================================================================== *)
(** ** The runs of the use-case                                           *)
(* ===================================================================== *)

Module ExecRuns.
Import Regex RegisterUser.

(** After the lookup found nothing: an identifier, the insert, the mail. *)
Inductive after_lookup {W} (h : Handler PortCall PortResp W) (input : RegisterInput)
    (w1 : W) : outcome User * W * list (Event PortCall) -> Prop :=
| newId_failed x w2 :
    h NewId w1 = (Threw x, w2) ->
    after_lookup h input w1 (Threw x, w2, [Called NewId (Some x)])
| create_failed i w2 x w3 :
    h NewId w1 = (Returned i, w2) ->
    h (Create (mkUser i (normalize (input_email input)) (input_name input) false)) w2
      = (Threw x, w3) ->
    after_lookup h input w1
      (Threw x, w3,
       [Called NewId None;
        Called (Create (mkUser i (normalize (input_email input)) (input_name input) false))
               (Some x)])
| send_failed i w2 w3 x w4 :
    h NewId w1 = (Returned i, w2) ->
    h (Create (mkUser i (normalize (input_email input)) (input_name input) false)) w2
      = (Returned tt, w3) ->
    h (SendWelcome (normalize (input_email input)) (input_name input)) w3
      = (Threw x, w4) ->
    after_lookup h input w1
      (Threw x, w4,
       [Called NewId None;
        Called (Create (mkUser i (normalize (input_email input)) (input_name input) false))
               None;
        Called (SendWelcome (normalize (input_email input)) (input_name input)) (Some x)])
| registered i w2 w3 w4 :
    h NewId w1 = (Returned i, w2) ->
    h (Create (mkUser i (normalize (input_email input)) (input_name input) false)) w2
      = (Returned tt, w3) ->
    h (SendWelcome (normalize (input_email input)) (input_name input)) w3
      = (Returned tt, w4) ->
    after_lookup h input w1
      (Returned (mkUser i (normalize (input_email input)) (input_name input) false), w4,
       [Called NewId None;
        Called (Create (mkUser i (normalize (input_email input)) (input_name input) false))
               None;
        Called (SendWelcome (normalize (input_email input)) (input_name input)) None]).

(** The ways a run of [exec] can go. *)
Inductive exec_run {W} (h : Handler PortCall PortResp W) (input : RegisterInput)
    (w : W) : outcome User * W * list (Event PortCall) -> Prop :=
| run_invalid :
    full_match email_pattern (normalize (input_email input)) = false ->
    exec_run h input w (Threw (Error "INVALID_EMAIL"), w, [])
| run_lookup_failed x w1 :
    full_match email_pattern (normalize (input_email input)) = true ->
    h (FindByEmail (normalize (input_email input))) w = (Threw x, w1) ->
    exec_run h input w
      (Threw x, w1, [Called (FindByEmail (normalize (input_email input))) (Some x)])
| run_taken u w1 :
    full_match email_pattern (normalize (input_email input)) = true ->
    h (FindByEmail (normalize (input_email input))) w = (Returned (Some u), w1) ->
    exec_run h input w
      (Threw (Error "EMAIL_TAKEN"), w1,
       [Called (FindByEmail (normalize (input_email input))) None])
| run_not_found w1 o w2 tr :
    full_match email_pattern (normalize (input_email input)) = true ->
    h (FindByEmail (normalize (input_email input))) w = (Returned None, w1) ->
    after_lookup h input w1 (o, w2, tr) ->
    exec_run h input w
      (o, w2, Called (FindByEmail (normalize (input_email input))) None :: tr).

End ExecRuns.

(* ===================================================================== *)
(** ** scripts/seed.ts                                                    *)
(* ===================================================================== *)

Module Seed.
Import Db.

(** The rows of the [VALUES] list. *)
Definition sample_users : list User :=
  [ {| id := "11111111-1111-1111-1111-111111111111"; email := "alice@example.com";
       name := Some "Alice"; verified := true |};
    {| id := "22222222-2222-2222-2222-222222222222"; email := "bob@example.com";
       name := Some "Bob"; verified := false |} ].

(** [INSERT INTO users (id, email, name, verified) VALUES v1, v2, ...
     ON CONFLICT (email) DO NOTHING] at time [now], row by row: a row whose
    email is stored (or was added by a row before it) is skipped; a row that
    breaks the primary key aborts the statement, which is [None]. *)
Fixpoint insert_skipping (vals : list User) (now : Z) (t : list Row)
  : option (list Row) :=
  match vals with
  | [] => Some t
  | u :: rest =>
      if existsb (fun r => String.eqb (row_email r) (email u)) t
      then insert_skipping rest now t
      else if existsb (fun r => String.eqb (row_id r) (id u)) t
      then None
      else insert_skipping rest now
             (t ++ [mkRow (id u) (email u) (name u) (verified u) now])%list
  end.

(** The statement is atomic: an abort leaves the table as it was. *)
Definition insert_on_conflict_do_nothing (vals : list User) (now : Z) (t : list Row)
  : outcome unit * list Row :=
  match insert_skipping vals now t with
  | Some t' => (Returned tt, t')
  | None => (Threw (UniqueViolation "users_pkey"), t)
  end.

(** What the script prints: "Seeding initial data...", "Seeding complete!",
    or "Seeding failed:" with the error. *)
Inductive Line : Type :=
| Seeding
| Complete
| Failed (err : thrown).

(** [main().then(() => process.exit(0)).catch(err => { ...; process.exit(1) })]:
    the exit code, the world and the lines printed. *)
Definition main {G} (w : World G) : Z * World G * list Line :=
  match insert_on_conflict_do_nothing sample_users (now w) (users w) with
  | (Returned _, t) => (0%Z, set_users t w, [Seeding; Complete])
  | (Threw e, t) => (1%Z, set_users t w, [Seeding; Failed e])
  end.

End Seed.

(* ===================================================================== *)
(** ** Words for the properties of strings and of worlds                  *)
(* ===================================================================== *)

(** Every code unit of [s] is white space. *)
Fixpoint all_white_space (s : string) : bool :=
  match s with
  | EmptyString => true
  | String c s' => Js.is_white_space c && all_white_space s'
  end.

(** [s] does not begin with white space. *)
Definition starts_clean (s : string) : Prop :=
  match s with
  | EmptyString => True
  | String c _ => Js.is_white_space c = false
  end.

(** [s] does not end with white space. *)
Fixpoint ends_clean (s : string) : Prop :=
  match s with
  | EmptyString => True
  | String c s' =>
      match s' with
      | EmptyString => Js.is_white_space c = false
      | String _ _ => ends_clean s'
      end
  end.

(** An upper-case letter below U+0100: A to Z, and U+00C0 to U+00DE but for
    the multiplication sign U+00D7. *)
Definition is_upper (c : ascii) : bool :=
  let n := nat_of_ascii c in
  ((65 <=? n)%nat && (n <=? 90)%nat)
  || ((192 <=? n)%nat && (n <=? 222)%nat && negb (n =? 215)%nat).

(** No code unit of [s] is an upper-case letter. *)
Fixpoint no_upper (s : string) : bool :=
  match s with
  | EmptyString => true
  | String c s' => negb (is_upper c) && no_upper s'
  end.

(** [n] is [s] with, unit by unit, the lower-case letter (32 further up) for
    every upper-case one, and every other unit as it is. *)
Fixpoint lowered (s n : string) : Prop :=
  match s, n with
  | EmptyString, EmptyString => True
  | String c s', String d n' =>
      d = (if is_upper c then ascii_of_nat (nat_of_ascii c + 32) else c) /\
      lowered s' n'
  | _, _ => False
  end.

(** [n] is [raw], trimmed and lower-cased: [raw] is white space, [core] and
    white space again, where [core] neither begins nor ends with white
    space, and [n] is [core] in lower case. *)
Definition trimmed_and_lowered (raw n : string) : Prop :=
  exists pre core post,
    raw = pre +:+ core +:+ post /\
    all_white_space pre = true /\ all_white_space post = true /\
    starts_clean core /\ ends_clean core /\
    lowered core n.

(** The number of at signs in [s]. *)
Fixpoint count_at (s : string) : nat :=
  match s with
  | EmptyString => 0
  | String c s' => (if Ascii.eqb c "@" then 1 else 0) + count_at s'
  end.

(** Every published event names the identifier and email of a stored row. *)
Definition announced {G} (w : World G) : Prop :=
  Forall (fun evt => In (userID evt, evt_email evt)
                        (map (fun r => (Db.row_id r, Db.row_email r)) (users w)))
         (signups w).

(** Every stored row has its welcome on the console, to its email, by its name. *)
Definition welcomed {G} (w : World G) : Prop :=
  Forall (fun r => In {| log_to := Db.row_email r; log_name := Db.row_name r |}
                      (console w))
         (users w).

(** Every welcome on the console went to a stored email. *)
Definition addressed {G} (w : World G) : Prop :=
  Forall (fun l => In (log_to l) (map Db.row_email (users w))) (console w).


(** The three trails together. *)
Definition trailed {G} (w : World G) : Prop := announced w /\ welcomed w /\ addressed w.

(* ===================================================================== *)
(** * Properties                                                          *)
(* ===================================================================== *)

(** ** The matcher agrees with the meaning of patterns *)

Module RegexFacts.
Import Regex.

Lemma str_app_nil_l (s : string) : "" +:+ s = s.
Proof. reflexivity. Qed.

Lemma str_app_cons c (s1 s2 : string) : String c s1 +:+ s2 = String c (s1 +:+ s2).
Proof. reflexivity. Qed.

Lemma str_app_nil_r (s : string) : s +:+ "" = s.
Proof.
  induction s as [|c s IH]; [done | by rewrite str_app_cons, IH].
Qed.

Lemma str_app_assoc (s1 s2 s3 : string) : (s1 +:+ s2) +:+ s3 = s1 +:+ (s2 +:+ s3).
Proof.
  induction s1 as [|c s1 IH]; [done | by rewrite !str_app_cons, IH].
Qed.

Lemma str_app_eq_nil (s1 s2 : string) : s1 +:+ s2 = "" -> s1 = "" /\ s2 = "".
Proof. destruct s1; [done | rewrite str_app_cons; discriminate]. Qed.

Lemma Matches_nil_nullable r s : Matches r s -> s = "" -> nullable r = true.
Proof.
  induction 1 as [| | r1 r2 s1 s2 _ IH1 _ IH2 | r1 r2 s _ IH | r1 r2 s _ IH | |];
    intros Hs; simpl; try done.
  - apply str_app_eq_nil in Hs as [-> ->]. by rewrite IH1, IH2.
  - by rewrite IH.
  - rewrite IH by done. apply orb_true_r.
Qed.

Lemma nullable_Matches r : nullable r = true -> Matches r "".
Proof.
  induction r as [| | neg cs | r1 IH1 r2 IH2 | r1 IH1 r2 IH2 | r IH]; simpl;
    try discriminate.
  - intros _. constructor.
  - intros [H1 H2]%andb_true_iff. apply (MCat r1 r2 "" ""); auto.
  - intros [H|H]%orb_true_iff; [apply MAltL | apply MAltR]; auto.
  - intros _. constructor.
Qed.

Lemma deriv_sound c r : forall s, Matches (deriv c r) s -> Matches r (String c s).
Proof.
  induction r as [| | neg cs | r1 IH1 r2 IH2 | r1 IH1 r2 IH2 | r IH];
    simpl; intros s H.
  - inversion H.
  - inversion H.
  - destruct (in_class neg cs c) eqn:Hc; inversion H; subst. by constructor.
  - assert (Hcat : forall s', Matches (Cat (deriv c r1) r2) s' ->
                              Matches (Cat r1 r2) (String c s')).
    { intros s' H'. inversion H' as [| | ? ? s1 s2 Ha Hb | | | |]; subst.
      apply (MCat r1 r2 (String c s1) s2); auto. }
    destruct (nullable r1) eqn:Hn; [|by apply Hcat].
    inversion H as [| | | ? ? ? Ha | ? ? ? Hb | |]; subst; [by apply Hcat|].
    apply (MCat r1 r2 "" (String c s)); [by apply nullable_Matches | auto].
  - inversion H; subst; [apply MAltL | apply MAltR]; auto.
  - inversion H as [| | ? ? s1 s2 Ha Hb | | | |]; subst.
    apply (MStarApp r (String c s1) s2); auto.
Qed.

Lemma deriv_complete c r s0 :
  Matches r s0 -> forall s, s0 = String c s -> Matches (deriv c r) s.
Proof.
  induction 1 as [| neg cs c0 Hc | r1 r2 s1 s2 H1 IH1 H2 IH2
                  | r1 r2 s0 _ IH | r1 r2 s0 _ IH | | r s1 s2 H1 IH1 H2 IH2];
    intros s Hs; simpl; try discriminate.
  - injection Hs as -> <-. rewrite Hc. constructor.
  - destruct s1 as [|c1 s1]; rewrite ?str_app_nil_l, ?str_app_cons in Hs.
    + rewrite (Matches_nil_nullable _ _ H1 eq_refl). apply MAltR; auto.
    + injection Hs as -> <-.
      assert (Matches (Cat (deriv c r1) r2) (s1 +:+ s2)) by (constructor; auto).
      destruct (nullable r1); [by apply MAltL | done].
  - apply MAltL; auto.
  - apply MAltR; auto.
  - destruct s1 as [|c1 s1]; rewrite ?str_app_nil_l, ?str_app_cons in Hs.
    + by apply IH2.
    + injection Hs as -> <-. constructor; auto.
Qed.

(** The derivative matcher decides [Matches]. *)
Lemma full_match_iff r s : full_match r s = true <-> Matches r s.
Proof.
  revert r. induction s as [|c s IH]; intros r; simpl.
  - split; [apply nullable_Matches | intros H; by eapply Matches_nil_nullable].
  - rewrite IH. split; [apply deriv_sound | intros H; by eapply deriv_complete].
Qed.

End RegexFacts.

(** ** The email pattern accepts exactly the well-formed addresses *)

Module EmailFormatFacts.
Import Regex RegexFacts EmailFormat RegisterUser.

Lemma in_class_non_at c : in_class true ["@"%char] c = negb (Ascii.eqb c "@").
Proof. unfold in_class. simpl. by rewrite orb_false_r. Qed.

Lemma Matches_class_inv neg cs s :
  Matches (Class neg cs) s -> exists c, s = String c "" /\ in_class neg cs c = true.
Proof. inversion 1; subst; eauto. Qed.

Lemma Matches_cat_inv r1 r2 s :
  Matches (Cat r1 r2) s -> exists s1 s2, s = s1 +:+ s2 /\ Matches r1 s1 /\ Matches r2 s2.
Proof. inversion 1; subst; eauto. Qed.

Lemma Matches_lit c s : Matches (Lit c) s <-> s = String c "".
Proof.
  split.
  - intros (c' & -> & Hc)%Matches_class_inv. unfold in_class in Hc. simpl in Hc.
    rewrite orb_false_r in Hc. by apply Ascii.eqb_eq in Hc as ->.
  - intros ->. constructor. unfold in_class. simpl. by rewrite Ascii.eqb_refl.
Qed.

Lemma star_non_at_sound r s :
  Matches r s -> r = Star (Class true ["@"%char]) -> no_at s = true.
Proof.
  induction 1 as [| | | | | | r0 s1 s2 H1 _ _ IH2]; intros Hr; try discriminate.
  - done.
  - injection Hr as ->.
    apply Matches_class_inv in H1 as (c & -> & Hc).
    rewrite in_class_non_at in Hc.
    rewrite str_app_cons, str_app_nil_l. simpl. by rewrite Hc, IH2.
Qed.

Lemma star_non_at s : Matches (Star (Class true ["@"%char])) s <-> no_at s = true.
Proof.
  split; [intros H; by eapply star_non_at_sound|].
  induction s as [|c s IH]; simpl; [constructor|].
  intros [Hc Hs]%andb_true_iff.
  apply (MStarApp _ (String c "") s); [|auto].
  constructor. by rewrite in_class_non_at.
Qed.

Lemma plus_non_at s : Matches (Plus (Class true ["@"%char])) s <-> part s.
Proof.
  unfold Plus, part. split.
  - intros (s1 & s2 & -> & (c & -> & Hc)%Matches_class_inv & H2%star_non_at)%Matches_cat_inv.
    rewrite in_class_non_at in Hc.
    rewrite str_app_cons, str_app_nil_l. simpl. by rewrite Hc, H2.
  - intros [Hne Hs]. destruct s as [|c s]; [done|].
    simpl in Hs. apply andb_true_iff in Hs as [Hc Hs].
    apply (MCat _ _ (String c "") s); [|by apply star_non_at].
    constructor. by rewrite in_class_non_at.
Qed.

(** X1: [/^[^@]+@[^@]+\.[^@]+$/] in words: the check accepts exactly the
    strings [local @ domain . rest] whose three parts are not empty and hold
    no at sign. *)
Lemma email_pattern_well_formed e :
  full_match email_pattern e = true <-> well_formed e.
Proof.
  rewrite full_match_iff. unfold email_pattern, well_formed. split.
  - intros (l & ? & -> & Hl%plus_non_at &
            (? & ? & -> & ->%Matches_lit &
             (d & ? & -> & Hd%plus_non_at &
              (? & t & -> & ->%Matches_lit & Ht%plus_non_at)
                %Matches_cat_inv)%Matches_cat_inv)%Matches_cat_inv)%Matches_cat_inv.
    by exists l, d, t.
  - intros (l & d & t & -> & Hl & Hd & Ht).
    repeat (first [ apply MCat | by apply plus_non_at | by apply Matches_lit ]).
Qed.

End EmailFormatFacts.

(** ** Running programs *)

Module ProgFacts.

Lemma run_bind {C R W A B} (h : Handler C R W) (p : Prog C R A) (f : A -> Prog C R B) w :
  run h (bind p f) w =
  match run h p w with
  | (Returned a, w1, tr1) =>
      let '(o, w2, tr2) := run h (f a) w1 in (o, w2, (tr1 ++ tr2)%list)
  | (Threw e, w1, tr1) => (Threw e, w1, tr1)
  end.
Proof.
  revert w. induction p as [a | e | c k IH]; intros w; simpl.
  - by destruct (run h (f a) w) as [[o w2] tr2].
  - done.
  - destruct (h c w) as [[r | e] w1]; [|done].
    rewrite IH. destruct (run h (k r) w1) as [[[a | e] w2] tr1]; [|done].
    by destruct (run h (f a) w2) as [[o w3] tr2].
Qed.

(** A use-case run from the delivery layer makes the same port calls. *)
Lemma run_from_usecase {W A} (h : Handler HttpCall HttpResp W)
    (p : Prog PortCall PortResp A) w :
  run h (from_usecase p) w =
  let '(o, w1, tr) := run (port_part h) p w in
  (o, w1, map (fun e => Called (Port (call e)) (failure e)) tr).
Proof.
  revert w. induction p as [a | e | c k IH]; intros w; simpl; try done.
  unfold port_part at 1.
  destruct (h (Port c) w) as [[r | e] w1]; [|done].
  rewrite IH. by destruct (run (port_part h) (k r) w1) as [[o w2] tr].
Qed.


(** One awaited call, and the rest of the program. *)
Lemma run_await {C R W A} (h : Handler C R W) (c : C) (k : R c -> Prog C R A) w :
  run h (x <- await c ;; k x)%prog w =
  match h c w with
  | (Returned r, w1) =>
      let '(o, w2, tr) := run h (k r) w1 in (o, w2, Called c None :: tr)
  | (Threw e, w1) => (Threw e, w1, [Called c (Some e)])
  end.
Proof. reflexivity. Qed.

(** One awaited call, its answer dropped. *)
Lemma run_await_ret {C R W A} (h : Handler C R W) (c : C) (a : A) w :
  run h (await c ;;; Ret a)%prog w =
  match h c w with
  | (Returned _, w1) => (Returned a, w1, [Called c None])
  | (Threw e, w1) => (Threw e, w1, [Called c (Some e)])
  end.
Proof. simpl. by destruct (h c w) as [[r | e] w1]. Qed.

End ProgFacts.

(** ** The use-case, case by case *)

Module ExecFacts.
Import Regex RegisterUser ExecRuns.

Lemma exec_run_spec {W} (h : Handler PortCall PortResp W) input w :
  exec_run h input w (run h (exec input) w).
Proof.
  unfold exec.
  destruct (full_match email_pattern (normalize (input_email input))) eqn:Hfmt;
    simpl; [|by constructor].
  destruct (h (FindByEmail _) w) as [[[u|] | x] w1] eqn:Hfind; simpl;
    [by econstructor | | by constructor].
  destruct (h NewId w1) as [[i | x] w2] eqn:Hid; simpl;
    [|by eapply run_not_found; [..|econstructor]].
  destruct (h (Create _) w2) as [[[] | x] w3] eqn:Hcr; simpl;
    [|by eapply run_not_found; [..|econstructor]].
  destruct (h (SendWelcome _ _) w3) as [[[] | x] w4] eqn:Hsw; simpl;
    by eapply run_not_found; [..|econstructor].
Qed.

(** Case analysis on a run of [exec]: seven goals, one per way it can go. *)
Ltac exec_cases h input w :=
  let Hrun := fresh "Hrun" in
  let Hrest := fresh "Hrest" in
  pose proof (exec_run_spec h input w) as Hrun;
  destruct (run h (exec input) w) as [[? ?] ?];
  inversion Hrun as [? | ? ? ? ? | ? ? ? ? | ? ? ? ? ? ? Hrest]; subst;
  [ | | | inversion Hrest; subst; clear Hrest ]; clear Hrun;
  unfold result, world, trace; simpl.

End ExecFacts.

(** ** The email, before it reaches a port *)

Module NormalizeFacts.
Import Js RegexFacts.

Lemma lower_unit_idem c : lower_unit (lower_unit c) = lower_unit c.
Proof. destruct c as [[] [] [] [] [] [] [] []]; reflexivity. Qed.

Lemma lower_unit_white_space c : is_white_space (lower_unit c) = is_white_space c.
Proof. destruct c as [[] [] [] [] [] [] [] []]; reflexivity. Qed.

Lemma toLowerCase_idem s : toLowerCase (toLowerCase s) = toLowerCase s.
Proof.
  unfold toLowerCase. induction s as [|c s IH]; simpl; [done|].
  by rewrite lower_unit_idem, IH.
Qed.

Lemma map_units_nil f s : map_units f s = "" <-> s = "".
Proof. by destruct s. Qed.

Lemma trimStart_lower s : trimStart (toLowerCase s) = toLowerCase (trimStart s).
Proof.
  unfold toLowerCase. induction s as [|c s IH]; simpl; [done|].
  rewrite lower_unit_white_space. by destruct (is_white_space c).
Qed.

Lemma trimEnd_lower s : trimEnd (toLowerCase s) = toLowerCase (trimEnd s).
Proof.
  unfold toLowerCase. induction s as [|c s IH]; simpl; [done|].
  rewrite IH, lower_unit_white_space.
  destruct (trimEnd s) as [|d t]; simpl; [|done].
  by destruct (is_white_space c).
Qed.

(** Trimming and lower-casing can be done in either order. *)
Lemma trim_lower s : trim (toLowerCase s) = toLowerCase (trim s).
Proof. unfold trim. by rewrite trimStart_lower, trimEnd_lower. Qed.

Lemma trimStart_clean s : starts_clean (trimStart s).
Proof.
  induction s as [|c s IH]; simpl; [done|].
  by destruct (is_white_space c) eqn:Hc.
Qed.

Lemma trimStart_of_clean s : starts_clean s -> trimStart s = s.
Proof. destruct s as [|c s]; simpl; [done|]. by intros ->. Qed.

Lemma trimEnd_clean s : starts_clean s -> starts_clean (trimEnd s).
Proof.
  destruct s as [|c s]; simpl; [done|]. intros Hc. rewrite Hc.
  by destruct (trimEnd s).
Qed.

Lemma trimEnd_idem s : trimEnd (trimEnd s) = trimEnd s.
Proof.
  induction s as [|c s IH]; simpl; [done|].
  destruct (trimEnd s) as [|d t] eqn:Ht.
  - destruct (is_white_space c) eqn:Hc; simpl; [done|]. by rewrite Hc.
  - simpl in *. rewrite IH. by destruct (is_white_space c).
Qed.

Lemma trim_idem s : trim (trim s) = trim s.
Proof.
  unfold trim.
  rewrite (trimStart_of_clean (trimEnd (trimStart s)))
    by apply trimEnd_clean, trimStart_clean.
  apply trimEnd_idem.
Qed.

Lemma trimStart_blank s : all_white_space s = true -> trimStart s = "".
Proof.
  induction s as [|c s IH]; simpl; [done|].
  intros [Hc Hs]%andb_true_iff. rewrite Hc. auto.
Qed.

Lemma normalize_idem raw :
  RegisterUser.normalize (RegisterUser.normalize raw) = RegisterUser.normalize raw.
Proof.
  unfold RegisterUser.normalize. by rewrite trim_lower, toLowerCase_idem, trim_idem.
Qed.

(** What [trimStart] and [trimEnd] drop is white space. *)
Lemma trimStart_split s :
  exists pre, s = pre +:+ trimStart s /\ all_white_space pre = true.
Proof.
  induction s as [|c s (pre & IH & Hpre)]; simpl; [by exists ""|].
  destruct (is_white_space c) eqn:Hc.
  - exists (String c pre). rewrite str_app_cons, <- IH. simpl. by rewrite Hc.
  - by exists "".
Qed.

Lemma trimEnd_split s :
  exists post, s = trimEnd s +:+ post /\ all_white_space post = true.
Proof.
  induction s as [|c s (post & IH & Hpost)]; simpl; [by exists ""|].
  destruct (trimEnd s) as [|d t] eqn:Ht.
  - rewrite str_app_nil_l in IH. subst post.
    destruct (is_white_space c) eqn:Hc.
    + exists (String c s). rewrite str_app_nil_l. simpl. by rewrite Hc.
    + exists s. by rewrite str_app_cons, str_app_nil_l.
  - exists post. rewrite str_app_cons, <- IH.
    by destruct (is_white_space c).
Qed.

Lemma trimEnd_ends_clean s : ends_clean (trimEnd s).
Proof.
  induction s as [|c s IH]; simpl; [done|].
  destruct (trimEnd s) as [|d t] eqn:Ht.
  - by destruct (is_white_space c) eqn:Hc.
  - by destruct (is_white_space c).
Qed.

Lemma trim_split raw :
  exists pre post,
    raw = pre +:+ trim raw +:+ post /\
    all_white_space pre = true /\ all_white_space post = true.
Proof.
  destruct (trimStart_split raw) as (pre & Hraw & Hpre).
  destruct (trimEnd_split (trimStart raw)) as (post & Hcore & Hpost).
  exists pre, post. unfold trim. by rewrite <- Hcore.
Qed.

Lemma trim_clean raw : starts_clean (trim raw) /\ ends_clean (trim raw).
Proof.
  split; [apply trimEnd_clean, trimStart_clean | apply trimEnd_ends_clean].
Qed.

(** Lower case, unit by unit. *)
Lemma lower_unit_spec c :
  lower_unit c = if is_upper c then ascii_of_nat (nat_of_ascii c + 32) else c.
Proof. reflexivity. Qed.

Lemma lower_unit_not_upper c : is_upper (lower_unit c) = false.
Proof. destruct c as [[] [] [] [] [] [] [] []]; reflexivity. Qed.

Lemma toLowerCase_lowered s : lowered s (toLowerCase s).
Proof.
  unfold toLowerCase. induction s as [|c s IH]; simpl; [done|].
  by rewrite <- lower_unit_spec.
Qed.

Lemma toLowerCase_no_upper s : no_upper (toLowerCase s) = true.
Proof.
  unfold toLowerCase. induction s as [|c s IH]; simpl; [done|].
  by rewrite lower_unit_not_upper, IH.
Qed.

Lemma toLowerCase_starts_clean s : starts_clean s -> starts_clean (toLowerCase s).
Proof. destruct s as [|c s]; simpl; [done|]. by rewrite lower_unit_white_space. Qed.

Lemma toLowerCase_ends_clean s : ends_clean s -> ends_clean (toLowerCase s).
Proof.
  unfold toLowerCase. induction s as [|c s IH]; simpl; [done|].
  destruct s as [|d s]; simpl in *; [by rewrite lower_unit_white_space | done].
Qed.

Lemma trimEnd_of_clean s : ends_clean s -> trimEnd s = s.
Proof.
  induction s as [|c s IH]; [done|].
  destruct s as [|d s]; [simpl; by intros ->|].
  intros Hs. specialize (IH Hs).
  change (trimEnd (String c (String d s)))
    with (match trimEnd (String d s), is_white_space c with
          | EmptyString, true => EmptyString
          | t, _ => String c t
          end).
  rewrite IH. by destruct (is_white_space c).
Qed.

Lemma toLowerCase_of_no_upper s : no_upper s = true -> toLowerCase s = s.
Proof.
  unfold toLowerCase. induction s as [|c s IH]; simpl; [done|].
  intros [Hc%negb_true_iff Hs]%andb_true_iff.
  by rewrite lower_unit_spec, Hc, IH.
Qed.

(** What [exec] makes of an email has no upper-case letter and no white
    space at its ends, and an email that is so is left as it is. *)
Lemma normalize_shape raw :
  no_upper (RegisterUser.normalize raw) = true /\
  starts_clean (RegisterUser.normalize raw) /\
  ends_clean (RegisterUser.normalize raw).
Proof.
  destruct (trim_clean raw) as [Hs He]. unfold RegisterUser.normalize.
  split; [apply toLowerCase_no_upper|].
  split; [by apply toLowerCase_starts_clean | by apply toLowerCase_ends_clean].
Qed.

Lemma normalize_fixed raw :
  no_upper raw = true -> starts_clean raw -> ends_clean raw ->
  RegisterUser.normalize raw = raw.
Proof.
  intros Hu Hs He. unfold RegisterUser.normalize, trim.
  by rewrite (trimStart_of_clean _ Hs), (trimEnd_of_clean _ He),
             (toLowerCase_of_no_upper _ Hu).
Qed.

(** [lowered] and [trimmed_and_lowered] name one string. *)
Lemma lowered_unique s : forall n1 n2, lowered s n1 -> lowered s n2 -> n1 = n2.
Proof.
  induction s as [|c s IH]; intros [|d1 n1] [|d2 n2]; simpl; try done.
  intros [-> H1] [-> H2]. f_equal. by apply IH.
Qed.

Lemma normalize_trimmed_and_lowered raw :
  trimmed_and_lowered raw (RegisterUser.normalize raw).
Proof.
  destruct (trim_split raw) as (pre & post & Hraw & Hpre & Hpost).
  destruct (trim_clean raw) as [Hs He].
  exists pre, (trim raw), post. repeat split; try done. apply toLowerCase_lowered.
Qed.

End NormalizeFacts.

(** ** The table and the adapter *)

Module DbFacts.
Import Db.

Lemma existsb_email_false e (t : list Row) :
  existsb (fun r => String.eqb (row_email r) e) t = false ->
  ~ In e (map row_email t).
Proof.
  intros Hex [r [<- Hin]]%in_map_iff.
  assert (existsb (fun r0 => String.eqb (row_email r0) (row_email r)) t = true);
    [|congruence].
  apply existsb_exists. exists r. by rewrite String.eqb_refl.
Qed.


(** The server refuses no parameter exactly when it takes each of them. *)
Lemma texts_error_none params :
  Pg.texts_error params = None <-> forallb Pg.accepts params = true.
Proof.
  unfold Pg.texts_error, Pg.accepts.
  induction params as [|s params IH]; simpl; [done|].
  destruct (Pg.too_long s); simpl; [done|].
  destruct (Pg.has_nul s); simpl.
  - by destruct (existsb Pg.too_long params).
  - exact IH.
Qed.

Lemma texts_error_one e : Pg.texts_error [e] = None <-> Pg.accepts e = true.
Proof. rewrite texts_error_none. simpl. by rewrite andb_true_r. Qed.

Lemma texts_error_refused e : Pg.accepts e = false -> exists x, Pg.texts_error [e] = Some x.
Proof.
  intros He. destruct (Pg.texts_error [e]) as [x|] eqn:Herr; [eauto|].
  apply texts_error_one in Herr. congruence.
Qed.

Lemma insert_params_accepted i e n :
  Pg.texts_error (insert_params i e n) = None <->
  Pg.accepts i = true /\ Pg.accepts e = true /\ Pg.accepts_opt n = true.
Proof.
  rewrite texts_error_none. destruct n as [s|]; simpl;
    rewrite ?andb_true_iff; intuition.
Qed.

(** A server error is no [Error] of JavaScript and no broken index. *)
Lemma texts_error_code params x :
  Pg.texts_error params = Some x -> exists code, x = DatabaseError code.
Proof. unfold Pg.texts_error. repeat case_match; intros [= <-]; eauto. Qed.

Lemma threshold_code hours now x :
  threshold hours now = Threw x -> exists code, x = DatabaseError code.
Proof.
  unfold threshold, hours_interval, Pg.timestamp_minus.
  repeat case_match; intros [= <-]; simplify_eq; eauto.
Qed.

(** The INSERT either changes nothing and throws, or appends a row whose
    email was not stored. *)
Lemma insert_user_cases i e n v now t o t' :
  insert_user i e n v now t = (o, t') ->
  (t' = t /\ exists x, o = Threw x) \/
  (o = Returned tt /\ t' = (t ++ [mkRow i e n v now])%list /\ ~ In e (map row_email t)).
Proof.
  unfold insert_user.
  destruct (Pg.texts_error _) as [x|]; [intros [= <- <-]; eauto|].
  destruct (existsb _ t) eqn:Hid; [intros [= <- <-]; eauto|].
  destruct (existsb (fun r => String.eqb (row_email r) e) t) eqn:Hem;
    intros [= <- <-]; [eauto|].
  right. repeat split. by apply existsb_email_false.
Qed.

Lemma insert_user_outcome i e n v now t o t' :
  insert_user i e n v now t = (o, t') ->
  (t' = t /\ exists x, o = Threw x) \/
  (o = Returned tt /\ t' = (t ++ [mkRow i e n v now])%list /\
   ~ In e (map row_email t) /\ Pg.accepts e = true).
Proof.
  intros Hins. destruct (insert_user_cases _ _ _ _ _ _ _ _ Hins) as [? | (-> & -> & ?)];
    [by left|]. right. repeat split; try done.
  unfold insert_user in Hins.
  destruct (Pg.texts_error _) as [x|] eqn:Herr; [discriminate|].
  by apply insert_params_accepted in Herr as (_ & ? & _).
Qed.

Lemma insert_user_no_Error i e n v now t msg t' :
  insert_user i e n v now t <> (Threw (Error msg), t').
Proof.
  unfold insert_user.
  destruct (Pg.texts_error _) as [x|] eqn:Herr.
  - apply texts_error_code in Herr as [code ->]. discriminate.
  - repeat case_match; discriminate.
Qed.


(** An INSERT that went through was given texts the server takes. *)
Lemma insert_user_accepted i e n v now t t' :
  insert_user i e n v now t = (Returned tt, t') ->
  Pg.accepts i = true /\ Pg.accepts e = true /\ Pg.accepts_opt n = true.
Proof.
  unfold insert_user.
  destruct (Pg.texts_error _) as [x|] eqn:Herr; [discriminate|].
  intros _. by apply insert_params_accepted.
Qed.

Lemma update_where_emails cond b t :
  map row_email (update_where cond (set_verified b) t) = map row_email t.
Proof.
  unfold update_where. rewrite map_map. apply map_ext. intros r.
  by destruct (cond r).
Qed.

Lemma update_where_unchanged cond set (t : list Row) :
  (forall r, cond r = true -> set r = r) -> update_where cond set t = t.
Proof.
  intros Hid. unfold update_where. rewrite <- (map_id t) at 2.
  apply map_ext. intros r. destruct (cond r) eqn:Hc; auto.
Qed.

(** The UPDATE of the sweep writes what is there. *)
Lemma disable_unchanged th (t : list Row) :
  update_where (unverified_before th) (set_verified false) t = t.
Proof.
  apply update_where_unchanged. unfold unverified_before.
  intros [i e n [] c]; simpl; [discriminate | done].
Qed.

Lemma set_users_same {G} (w : World G) : set_users (users w) w = w.
Proof. by destruct w. Qed.

Lemma head_selected e (t : list Row) :
  head (map selected (List.filter (fun r => String.eqb (row_email r) e) t))
  = selected <$> select_by_email e t.
Proof.
  unfold select_by_email. induction t as [|r t IH]; simpl; [done|].
  by destruct (String.eqb (row_email r) e).
Qed.

(** The three methods of the adapter, against the database. *)
Lemma create_eq {G} u (w : World G) :
  on_database (Sql.create u) w =
  match insert_user (id u) (email u) (name u) (verified u) (now w) (users w) with
  | (Returned _, t) => (Returned tt, set_users t w)
  | (Threw x, _) => (Threw x, w)
  end.
Proof.
  unfold on_database. simpl.
  by destruct (insert_user _ _ _ _ _ _) as [[[] | x] t].
Qed.

Lemma findByEmail_eq {G} e (w : World G) :
  on_database (Sql.findByEmail e) w =
  match Pg.texts_error [e] with
  | Some x => (Threw x, w)
  | None => (Returned (selected <$> select_by_email e (users w)), w)
  end.
Proof.
  unfold on_database. simpl.
  destruct (Pg.texts_error [e]) as [x|]; [done|]. simpl.
  rewrite head_selected, set_users_same.
  by destruct (select_by_email e (users w)) as [[]|].
Qed.

Lemma disable_eq {G} hours (w : World G) :
  on_database (Sql.disableUnverifiedOlderThan hours) w =
  match threshold hours (now w) with
  | Returned _ => (Returned 0%Z, w)
  | Threw x => (Threw x, w)
  end.
Proof.
  unfold on_database. simpl.
  destruct (threshold hours (now w)) as [th | x]; [|done]. simpl.
  by rewrite disable_unchanged, set_users_same.
Qed.

(** The same, for the methods of the repository. *)
Lemma repo_create {G} u (w : World G) :
  create UserRepoSQL u w =
  match insert_user (id u) (email u) (name u) (verified u) (now w) (users w) with
  | (Returned _, t) => (Returned tt, set_users t w)
  | (Threw x, _) => (Threw x, w)
  end.
Proof. apply create_eq. Qed.

Lemma repo_findByEmail {G} e (w : World G) :
  findByEmail UserRepoSQL e w =
  match Pg.texts_error [e] with
  | Some x => (Threw x, w)
  | None => (Returned (selected <$> select_by_email e (users w)), w)
  end.
Proof. apply findByEmail_eq. Qed.

Lemma repo_disable {G} hours (w : World G) :
  disableUnverifiedOlderThan UserRepoSQL hours w =
  match threshold hours (now w) with
  | Returned _ => (Returned 0%Z, w)
  | Threw x => (Threw x, w)
  end.
Proof. apply disable_eq. Qed.

End DbFacts.

(** What each deployed port does to the world. *)

Module DeployedFacts.
Import Db DbFacts.

Section Ports.
Context {G : Type} (next_id : G -> string * G).

Lemma deployed_find e (w : World G) o w1 :
  ports (deployed next_id) (FindByEmail e) w = (o, w1) ->
  w1 = w /\
  match o with
  | Returned found =>
      Pg.texts_error [e] = None /\ found = selected <$> select_by_email e (users w)
  | Threw x => Pg.texts_error [e] = Some x
  end.
Proof.
  simpl. rewrite findByEmail_eq.
  destruct (Pg.texts_error [e]) as [x|]; by intros [= <- <-].
Qed.

Lemma deployed_newId (w : World G) o w1 :
  ports (deployed next_id) NewId w = (o, w1) ->
  exists i g, o = Returned i /\ w1 = set_ids g w.
Proof. simpl. destruct (next_id (ids w)) as [i g]. intros [= <- <-]. eauto. Qed.

Lemma deployed_create u (w : World G) o w1 :
  ports (deployed next_id) (Create u) w = (o, w1) ->
  exists t, w1 = set_users t w /\
            insert_user (id u) (email u) (name u) (verified u) (now w) (users w) = (o, t).
Proof.
  simpl. rewrite create_eq.
  destruct (insert_user _ _ _ _ _ _) as [[[] | x] t] eqn:Hins; intros [= <- <-]; [eauto|].
  exists (users w). rewrite set_users_same. split; [done|].
  by apply insert_user_cases in Hins as [[-> _] | ([=] & _)].
Qed.

Lemma deployed_send to nm (w : World G) o w1 :
  ports (deployed next_id) (SendWelcome to nm) w = (o, w1) ->
  o = Returned tt /\ users w1 = users w /\ now w1 = now w.
Proof. simpl. by intros [= <- <-]. Qed.

Lemma deployed_disable hours (w : World G) :
  ports (deployed next_id) (DisableUnverifiedOlderThan hours) w =
  match threshold hours (now w) with
  | Returned _ => (Returned 0%Z, w)
  | Threw x => (Threw x, w)
  end.
Proof. apply disable_eq. Qed.

(** The job leaves the world as it is. *)
Lemma job_world (w : World G) :
  world (run (ports (deployed next_id)) Jobs.cleanupUnverified w) = w.
Proof.
  unfold Jobs.cleanupUnverified. rewrite ProgFacts.run_await_ret, deployed_disable.
  by destruct (threshold _ _).
Qed.

End Ports.

Lemma sweep_world {G} hours (w : World G) : sweep hours w = w.
Proof.
  unfold sweep.
  change (disableUnverifiedOlderThan UserRepoSQL hours w)
    with (on_database (Sql.disableUnverifiedOlderThan hours) w).
  rewrite disable_eq. by destruct (threshold _ _).
Qed.

End DeployedFacts.

(* ===================================================================== *)
(** * The use-case: results, errors, normalization                        *)
(* ===================================================================== *)

Section UseCase.
Import Regex RegisterUser ExecRuns ExecFacts NormalizeFacts.

(** The test of the repository, "registers user". *)
Example registers_user :
  result (run (ports Test.deps)
              (exec {| input_email := "A@B.com"; input_name := Some "Alice" |}) ∅)
  = Returned {| id := "id-1"; email := "a@b.com"; name := Some "Alice";
                verified := false |}.
Proof. reflexivity. Qed.

(** C1, as stated, fails: the deployed repository with the generator of the
    test has stored one user; the next registration has a well-formed email
    that [findByEmail] does not find, and yet [exec] does not return: the
    INSERT of [create] breaks the primary key and the error is not caught. *)
Lemma fresh_email_registration_fails :
  let deps := deployed Test.next_id in
  let w := run_ops Test.next_id
             [Register {| input_email := "a@b.com"; input_name := None |}]
             (empty_world tt 0) in
  let input := {| input_email := "c@d.com"; input_name := None |} in
  full_match email_pattern (normalize (input_email input)) = true /\
  findByEmail (repo deps) (normalize (input_email input)) w = (Returned None, w) /\
  ~ (exists u, result (run (ports deps) (exec input) w) = Returned u).
Proof.
  repeat split; [done..|]. by intros [u Hu].
Qed.

(** C1, amended: when the normalized email matches the pattern, [findByEmail]
    returns null for it and no port call throws during the run, [exec]
    returns the record with the identifier [newId] gave, the normalized
    email, the name of the input and [verified = false]. *)
Theorem exec_registers_fresh_email {W} (deps : Deps W) input w w1 :
  full_match email_pattern (normalize (input_email input)) = true ->
  findByEmail (repo deps) (normalize (input_email input)) w = (Returned None, w1) ->
  no_port_failure (trace (run (ports deps) (exec input) w)) = true ->
  exists i w2,
    newId (idgen deps) w1 = (Returned i, w2) /\
    result (run (ports deps) (exec input) w)
    = Returned {| id := i; email := normalize (input_email input);
                  name := input_name input; verified := false |}.
Proof.
  intros Hfmt Hfind.
  exec_cases (ports deps) input w;
    try discriminate; simpl in *; try congruence.
  intros _.
  match goal with
  | Hf : findByEmail _ _ w = (Returned None, ?w') |- _ =>
      assert (w' = w1) as -> by congruence
  end.
  eauto.
Qed.

Lemma exec_registers_fresh_email_witness :
  let input := {| input_email := "A@B.com"; input_name := Some "Alice" |} in
  exists i w2,
    newId (idgen Test.deps) ∅ = (Returned i, w2) /\
    result (run (ports Test.deps) (exec input) ∅)
    = Returned {| id := i; email := "a@b.com"; name := Some "Alice";
                  verified := false |}.
Proof.
  exact (exec_registers_fresh_email Test.deps
           {| input_email := "A@B.com"; input_name := Some "Alice" |} ∅ ∅
           eq_refl eq_refl eq_refl).
Defined.

(** C2, as stated, fails in its last part: in the same run as above neither
    error condition holds (the email is well-formed and [findByEmail] finds
    nothing) and [exec] throws all the same, the error of the INSERT. *)
Lemma exec_throws_a_third_error :
  let deps := deployed Test.next_id in
  let w := run_ops Test.next_id
             [Register {| input_email := "a@b.com"; input_name := None |}]
             (empty_world tt 0) in
  let input := {| input_email := "c@d.com"; input_name := None |} in
  full_match email_pattern (normalize (input_email input)) = true /\
  findByEmail (repo deps) (normalize (input_email input)) w = (Returned None, w) /\
  result (run (ports deps) (exec input) w) = Threw (UniqueViolation "users_pkey").
Proof. done. Qed.

(** C2, amended: in a run during which no port call throws, [exec] throws
    INVALID_EMAIL exactly when the normalized email fails the format check,
    EMAIL_TAKEN exactly when it passes and [findByEmail] returns a record,
    and it throws nothing else.  (An error thrown by a port is not caught.) *)
Theorem exec_two_error_conditions {W} (deps : Deps W) input w :
  no_port_failure (trace (run (ports deps) (exec input) w)) = true ->
  (result (run (ports deps) (exec input) w) = Threw (Error "INVALID_EMAIL")
   <-> full_match email_pattern (normalize (input_email input)) = false) /\
  (result (run (ports deps) (exec input) w) = Threw (Error "EMAIL_TAKEN")
   <-> full_match email_pattern (normalize (input_email input)) = true /\
       exists u w1, findByEmail (repo deps) (normalize (input_email input)) w
                    = (Returned (Some u), w1)) /\
  (forall x, result (run (ports deps) (exec input) w) = Threw x ->
             x = Error "INVALID_EMAIL" \/ x = Error "EMAIL_TAKEN").
Proof.
  exec_cases (ports deps) input w; try discriminate; intros _; simpl in *;
    (split; [|split]);
    try (split; [intros ?|intros ?]);
    try (intros x Hx; injection Hx as <-);
    try discriminate; try congruence; auto;
    try match goal with
        | H : _ /\ (exists u w1, _) |- _ => destruct H as (? & ? & ? & ?)
        end;
    simpl in *; try congruence; eauto.
Qed.

Lemma exec_two_error_conditions_witness :
  let input := {| input_email := "not an email"; input_name := None |} in
  (result (run (ports Test.deps) (exec input) ∅) = Threw (Error "INVALID_EMAIL")
   <-> full_match email_pattern (normalize (input_email input)) = false) /\
  (result (run (ports Test.deps) (exec input) ∅) = Threw (Error "EMAIL_TAKEN")
   <-> full_match email_pattern (normalize (input_email input)) = true /\
       exists u w1, findByEmail (repo Test.deps) (normalize (input_email input)) ∅
                    = (Returned (Some u), w1)) /\
  (forall x, result (run (ports Test.deps) (exec input) ∅) = Threw x ->
             x = Error "INVALID_EMAIL" \/ x = Error "EMAIL_TAKEN").
Proof.
  exact (exec_two_error_conditions Test.deps
           {| input_email := "not an email"; input_name := None |} ∅ eq_refl).
Defined.

(** The proviso does not rest on a generator that repeats itself.  Two
    requests for one email, the first overtaken by the second between its
    lookup and its insert: the lookup of the first found nothing, the second
    registers, and the INSERT of the first breaks the unique email. *)
Example overtaken_registration_fails :
  run_overtaken (ports (deployed Test.fresh_id))
    (exec {| input_email := "a@b.com"; input_name := None |})
    (exec {| input_email := " A@B.com"; input_name := Some "Al" |})
    (empty_world 0%nat 0)
  = (Threw (UniqueViolation "users_email_key"),
     Returned {| id := "id-0"; email := "a@b.com"; name := Some "Al";
                 verified := false |},
     mkWorld [Db.mkRow "id-0" "a@b.com" (Some "Al") false 0] 0
             [{| log_to := "a@b.com"; log_name := Some "Al" |}] [] 2%nat).
Proof. reflexivity. Qed.

(** The fakes of the test never throw: there the two conditions are all. *)
Lemma test_ports_never_fail input (m : gmap string User) :
  no_port_failure (trace (run (ports Test.deps) (exec input) m)) = true.
Proof.
  exec_cases (ports Test.deps) input m; try done; simpl in *; congruence.
Qed.

(** Whatever the ports are: an error of [exec] itself comes before any write. *)
Lemma exec_own_errors_precede_writes {W} (deps : Deps W) input w x :
  no_port_failure (trace (run (ports deps) (exec input) w)) = true ->
  result (run (ports deps) (exec input) w) = Threw x ->
  calls (trace (run (ports deps) (exec input) w)) = [] \/
  calls (trace (run (ports deps) (exec input) w))
  = [FindByEmail (normalize (input_email input))].
Proof.
  exec_cases (ports deps) input w; try discriminate; auto.
Qed.

(** X22: with the in-memory fakes of the test, a well-formed email that the
    map does not hold always registers: [exec] returns the record with the
    identifier id-1, the map gains the record under the normalized email,
    and the four calls are made in order. *)
Lemma test_exec_registers input (m : gmap string User) :
  full_match email_pattern (normalize (input_email input)) = true ->
  m !! normalize (input_email input) = None ->
  run (ports Test.deps) (exec input) m
  = (Returned {| id := "id-1"; email := normalize (input_email input);
                 name := input_name input; verified := false |},
     <[normalize (input_email input) :=
         {| id := "id-1"; email := normalize (input_email input);
            name := input_name input; verified := false |}]> m,
     [Called (FindByEmail (normalize (input_email input))) None;
      Called NewId None;
      Called (Create {| id := "id-1"; email := normalize (input_email input);
                        name := input_name input; verified := false |}) None;
      Called (SendWelcome (normalize (input_email input)) (input_name input)) None]).
Proof.
  intros Hfmt Hnew. unfold exec. rewrite Hfmt. simpl. by rewrite Hnew.
Qed.

(** C3: whatever the ports do, the lookup comes first and is given the
    trimmed, lower-cased email [n]; every later call that takes an email
    (the record of [create], the address of [sendWelcome]) is given the
    same, and so is the record returned.  Trimmed and lower-cased, in full:
    the input is white space, a core and white space, the core neither
    begins nor ends with white space, and [n] is the core with the
    lower-case letter for every upper-case one; so [n] has no upper-case
    letter and no white space at its ends.  It is the raw email only when
    the raw email is all that already. *)
Theorem exec_normalizes_email {W} (h : Handler PortCall PortResp W) input w :
  exists n,
    trimmed_and_lowered (input_email input) n /\
    no_upper n = true /\ starts_clean n /\ ends_clean n /\
    n = Js.toLowerCase (Js.trim (input_email input)) /\
    (n = input_email input <->
     no_upper (input_email input) = true /\
     starts_clean (input_email input) /\ ends_clean (input_email input)) /\
    match calls (trace (run h (exec input) w)) with
    | [] => True
    | c :: _ => c = FindByEmail n
    end /\
    Forall (carries_email n) (calls (trace (run h (exec input) w))) /\
    match result (run h (exec input) w) with
    | Returned u => email u = n
    | Threw _ => True
    end.
Proof.
  exists (normalize (input_email input)).
  destruct (normalize_shape (input_email input)) as (Hu & Hs & He).
  split; [apply normalize_trimmed_and_lowered|].
  do 4 (split; [done|]).
  split.
  { split; [by intros <- | intros (? & ? & ?); by apply normalize_fixed]. }
  exec_cases h input w; repeat split; repeat constructor.
Qed.

(** The raw email of the test is not what is looked up or stored. *)
Example test_email_is_normalized :
  calls (trace (run (ports Test.deps)
                    (exec {| input_email := "  A@B.com "; input_name := None |}) ∅))
  = [FindByEmail "a@b.com"; NewId;
     Create {| id := "id-1"; email := "a@b.com"; name := None; verified := false |};
     SendWelcome "a@b.com" None].
Proof. reflexivity. Qed.

End UseCase.

(* ===================================================================== *)
(** * The delivery layer: the POST handler                                *)
(* ===================================================================== *)

Section Delivery.
Import Regex RegisterUser ExecRuns ExecFacts ProgFacts DbFacts DeployedFacts.

(** C4: the handler validates first: an email that fails the format check
    ends the run before any call.  A run that returns has passed the check
    and has made exactly these calls, in this order: the lookup, the
    identifier, the insert, the welcome mail and, last, the publication of
    the identifier and email of the new user. *)
Theorem register_steps_in_order {W} (h : Handler HttpCall HttpResp W) req w :
  (full_match email_pattern (normalize (input_email req)) = false ->
   calls (trace (run h (Http.register req) w)) = []) /\
  (forall resp,
     result (run h (Http.register req) w) = Returned resp ->
     full_match email_pattern (normalize (input_email req)) = true /\
     exists i,
       calls (trace (run h (Http.register req) w)) =
         [Port (FindByEmail (normalize (input_email req)));
          Port NewId;
          Port (Create {| id := i; email := normalize (input_email req);
                          name := input_name req; verified := false |});
          Port (SendWelcome (normalize (input_email req)) (input_name req));
          Publish {| userID := i; evt_email := normalize (input_email req) |}] /\
       resp = {| Http.resp_id := i; Http.resp_email := normalize (input_email req);
                 Http.resp_name := input_name req; Http.resp_verified := false;
                 Http.status := 201 |}).
Proof.
  unfold Http.register. rewrite run_bind, run_from_usecase.
  exec_cases (port_part h) req w; (split; [congruence || done|]);
    intros resp; try discriminate.
  destruct (h (Publish _) _) as [[[] | x] w5]; [|discriminate].
  intros [= <-]. split; [done|]. by eexists.
Qed.

Lemma register_steps_in_order_witness :
  exists i,
    calls (trace (run (Http.service Test.next_id)
                      (Http.register {| input_email := "A@B.com";
                                        input_name := Some "Alice" |})
                      (empty_world tt 0))) =
      [Port (FindByEmail "a@b.com");
       Port NewId;
       Port (Create {| id := i; email := "a@b.com";
                       name := Some "Alice"; verified := false |});
       Port (SendWelcome "a@b.com" (Some "Alice"));
       Publish {| userID := i; evt_email := "a@b.com" |}].
Proof.
  destruct (proj2 (register_steps_in_order (Http.service Test.next_id)
              {| input_email := "A@B.com"; input_name := Some "Alice" |}
              (empty_world tt 0)) _ eq_refl) as (_ & i & Hcalls & _).
  exists i. exact Hcalls.
Defined.

(** The deployed ports throw no JavaScript [Error]: they fail with the
    errors of the database and no other. *)
Lemma deployed_ports_throw_no_Error {G} (next_id : G -> string * G) c w msg w1 :
  ports (deployed next_id) c w <> (Threw (Error msg), w1).
Proof.
  destruct c as [u | e | hrs | | to nm]; simpl; try discriminate.
  - rewrite create_eq.
    destruct (Db.insert_user _ _ _ _ _ _) as [[[] | x] t] eqn:Hins; [discriminate|].
    intros [= -> _]. by apply insert_user_no_Error in Hins.
  - rewrite findByEmail_eq.
    destruct (Pg.texts_error [e]) as [x|] eqn:Herr; [|discriminate].
    apply texts_error_code in Herr as [code ->]. discriminate.
  - rewrite disable_eq.
    destruct (Db.threshold hrs (now w)) as [th | x] eqn:Hth; [discriminate|].
    apply threshold_code in Hth as [code ->]. discriminate.
  - destruct (next_id (ids w)); discriminate.
Qed.

(** X24: the handler publishes only after the use-case has returned: when
    [exec] throws, the handler throws the same error, makes the calls of
    [exec] and no other, and leaves the world as [exec] left it. *)
Lemma register_propagates_errors {W} (h : Handler HttpCall HttpResp W) req w x :
  result (run (port_part h) (exec req) w) = Threw x ->
  result (run h (Http.register req) w) = Threw x /\
  world (run h (Http.register req) w) = world (run (port_part h) (exec req) w) /\
  calls (trace (run h (Http.register req) w))
  = map Port (calls (trace (run (port_part h) (exec req) w))).
Proof.
  unfold Http.register. rewrite run_bind, run_from_usecase.
  destruct (run (port_part h) (exec req) w) as [[[u | y] w1] tr];
    unfold result, world, trace, calls; simpl; [discriminate|].
  intros [= ->]. by rewrite !map_map.
Qed.

(** C10: when [exec], run by the deployed service, throws INVALID_EMAIL or
    EMAIL_TAKEN, the world is what it was (no row inserted, no mail logged),
    the handler throws the same error, leaves the world as it was (nothing
    published) and has made no call but, at most, the lookup. *)
Theorem registration_errors_are_atomic {G} (next_id : G -> string * G) req (w : World G) x :
  x = Error "INVALID_EMAIL" \/ x = Error "EMAIL_TAKEN" ->
  result (run (ports (deployed next_id)) (exec req) w) = Threw x ->
  world (run (ports (deployed next_id)) (exec req) w) = w /\
  (calls (trace (run (ports (deployed next_id)) (exec req) w)) = [] \/
   calls (trace (run (ports (deployed next_id)) (exec req) w))
   = [FindByEmail (normalize (input_email req))]) /\
  result (run (Http.service next_id) (Http.register req) w) = Threw x /\
  world (run (Http.service next_id) (Http.register req) w) = w /\
  (calls (trace (run (Http.service next_id) (Http.register req) w)) = [] \/
   calls (trace (run (Http.service next_id) (Http.register req) w))
   = [Port (FindByEmail (normalize (input_email req)))]).
Proof.
  intros Hx. unfold Http.register. rewrite run_bind, run_from_usecase.
  change (port_part (Http.service next_id)) with (ports (deployed next_id)).
  destruct Hx as [-> | ->];
    exec_cases (ports (deployed next_id)) req w; intros Hres; simplify_eq;
    try (exfalso; eapply deployed_ports_throw_no_Error; eassumption);
    repeat match goal with
      | H : ports _ (FindByEmail _) _ = _ |- _ => apply deployed_find in H as [-> _]
      end;
    simpl in *; simplify_eq; auto 10.
Qed.

Lemma registration_errors_are_atomic_witness :
  let w := run_ops Test.next_id
             [Register {| input_email := "a@b.com"; input_name := None |}]
             (empty_world tt 0) in
  let req := {| input_email := " A@b.COM"; input_name := Some "Al" |} in
  world (run (Http.service Test.next_id) (Http.register req) w) = w.
Proof.
  exact (proj1 (proj2 (proj2 (proj2
    (registration_errors_are_atomic Test.next_id
       {| input_email := " A@b.COM"; input_name := Some "Al" |}
       (run_ops Test.next_id
          [Register {| input_email := "a@b.com"; input_name := None |}]
          (empty_world tt 0))
       (Error "EMAIL_TAKEN") (or_intror eq_refl) eq_refl))))).
Defined.

End Delivery.

(* ===================================================================== *)
(** * The table: uniqueness, the sweep, the verified flag                 *)
(* ===================================================================== *)



Module HistoryFacts.
Import Regex RegisterUser ExecRuns ExecFacts NormalizeFacts Db DbFacts DeployedFacts.

Section Histories.
Context {G : Type} (next_id : G -> string * G).

(** A registration leaves the table alone or appends one unverified row,
    with a well-formed email that was not stored and that the server
    takes. *)
Lemma exec_users input (w : World G) :
  users (world (run (ports (deployed next_id)) (exec input) w)) = users w \/
  exists i,
    users (world (run (ports (deployed next_id)) (exec input) w))
    = (users w ++ [mkRow i (normalize (input_email input)) (input_name input)
                         false (now w)])%list /\
    full_match email_pattern (normalize (input_email input)) = true /\
    ~ In (normalize (input_email input)) (map row_email (users w)) /\
    Pg.accepts (normalize (input_email input)) = true.
Proof.
  exec_cases (ports (deployed next_id)) input w;
    repeat match goal with
      | H : ports _ (FindByEmail _) _ = _ |- _ =>
          apply deployed_find in H as [-> _]
      | H : ports _ NewId _ = _ |- _ =>
          apply deployed_newId in H as (? & ? & ? & ->)
      | H : ports _ (Create _) _ = _ |- _ =>
          apply deployed_create in H
            as (? & -> & [[-> _] | (? & -> & ? & ?)]%insert_user_outcome)
      | H : ports _ (SendWelcome _ _) _ = _ |- _ =>
          apply deployed_send in H as (? & ? & ?)
      end; simplify_eq; simpl in *; auto.
  right. eexists. by split.
Qed.



(** The unique key guards every write: no port call, in whatever order the
    requests in flight make them, stores an email twice. *)
Lemma port_call_keeps_emails_unique c (w : World G) :
  NoDup (map row_email (users w)) ->
  NoDup (map row_email (users (ports (deployed next_id) c w).2)).
Proof.
  intros Hnodup. destruct c as [u | e | hrs | | to nm].
  - destruct (ports (deployed next_id) (Create u) w) as [o w1] eqn:Hc.
    apply deployed_create in Hc as (t & -> & [[-> _] | (_ & -> & Hfresh)]%insert_user_cases);
      simpl; [done|].
    rewrite map_app. simpl. apply NoDup_app. repeat split; [done | | ].
    + intros e He ->%list_elem_of_singleton. by apply Hfresh, list_elem_of_In.
    + apply NoDup_singleton.
  - destruct (ports (deployed next_id) (FindByEmail e) w) as [o w1] eqn:Hc.
    by apply deployed_find in Hc as [-> _].
  - rewrite deployed_disable. by destruct (threshold _ _).
  - simpl. by destruct (next_id (ids w)).
  - done.
Qed.

(** The handler does to the table what the use-case does. *)
Lemma register_users req (w : World G) :
  users (world (run (Http.service next_id) (Http.register req) w))
  = users (world (run (ports (deployed next_id)) (exec req) w)).
Proof.
  unfold Http.register. rewrite ProgFacts.run_bind, ProgFacts.run_from_usecase.
  change (port_part (Http.service next_id)) with (ports (deployed next_id)).
  by destruct (run (ports (deployed next_id)) (exec req) w) as [[[u | x] w1] tr].
Qed.

Lemma step_consistent op (w : World G) :
  consistent w -> consistent (step next_id op w).
Proof.
  intros [Hnodup Hok].
  assert (forall input,
            consistent (world (run (ports (deployed next_id)) (exec input) w)))
    as Hexec.
  { intros input. unfold consistent.
    destruct (exec_users input w) as [-> | (i & -> & Hfmt & Hfresh & Hacc)]; [done|].
    split.
    - rewrite map_app. simpl. apply NoDup_app. repeat split; [done | | ].
      + intros e He ->%list_elem_of_singleton. by apply Hfresh, list_elem_of_In.
      + apply NoDup_singleton.
    - apply Forall_app. split; [done|]. repeat constructor; simpl; try done.
      apply normalize_idem. }
  destruct op as [input | req | n | | t]; unfold step.
  - apply Hexec.
  - unfold consistent. rewrite register_users. apply Hexec.
  - by destruct (signups w !! n).
  - by rewrite job_world.
  - done.
Qed.

Lemma run_ops_consistent ops (w : World G) :
  consistent w -> consistent (run_ops next_id ops w).
Proof.
  revert w. induction ops as [|op ops IH]; intros w Hw; [done|].
  simpl. by apply IH, step_consistent.
Qed.

Lemma empty_consistent g t : consistent (empty_world (G := G) g t).
Proof. split; simpl; [apply NoDup_nil_2 | constructor]. Qed.

End Histories.

End HistoryFacts.

Section Table.
Import Regex RegisterUser NormalizeFacts Db DbFacts DeployedFacts HistoryFacts.



(** C7: in every such history (registrations and sweeps, in any order, from
    the empty table) every stored row has [verified = false]: a registration
    appends a row with the flag off, the sweep writes nothing but [false]. *)
Theorem no_row_is_ever_verified {G} (next_id : G -> string * G) g t0 ops :
  Forall (fun r => row_verified r = false)
         (users (run_ops next_id ops (empty_world g t0))).
Proof.
  destruct (run_ops_consistent next_id ops _ (empty_consistent g t0)) as [_ Hok].
  eapply Forall_impl; [exact Hok|]. by intros r [Hv _].
Qed.

(** C6: the job calls the sweep with 24 hours and nothing else, and the
    sweep sends the database one statement, the UPDATE with 24 for its
    parameter.  When [now], less 24 hours, is a timestamp, the server
    carries the UPDATE out, and the rows it updates are exactly the rows
    that are not verified and were created before [now] less 24 hours
    (86400000000 microseconds), each of them once, in the order of the
    table.  Row by row, in place: such a row is written with
    [verified = false] and its other fields as they were, any other row is
    left as it is; nothing else of the world changes. *)
Theorem cleanup_touches_only_stale_flags {G} (next_id : G -> string * G) (w : World G) :
  (Pg.MIN_TIMESTAMP <= now w - 86400000000 < Pg.END_TIMESTAMP)%Z ->
  calls (trace (run (ports (deployed next_id)) Jobs.cleanupUnverified w))
  = [DisableUnverifiedOlderThan (Js.Int 24)] /\
  result (run (ports (deployed next_id)) Jobs.cleanupUnverified w) = Returned tt /\
  calls (trace (run database (Sql.disableUnverifiedOlderThan (Js.Int 24)) w))
  = [RawExec (DisableUnverified (Js.Int 24))] /\
  (exists a,
     execute (DisableUnverified (Js.Int 24)) (now w) (users w)
     = Returned (a, users (world (run (ports (deployed next_id))
                                     Jobs.cleanupUnverified w))) /\
     affected a
     = List.filter (fun r => negb (row_verified r)
                             && (row_created_at r <? now w - 86400000000)%Z)
                   (users w)) /\
  (forall r, In r (users w) ->
             row_verified r = false /\ (row_created_at r < now w - 86400000000)%Z <->
             exists a t, execute (DisableUnverified (Js.Int 24)) (now w) (users w)
                         = Returned (a, t) /\ In r (affected a)) /\
  Forall2
    (fun r r' =>
       r' = if negb (row_verified r) && (row_created_at r <? now w - 86400000000)%Z
            then {| row_id := row_id r; row_email := row_email r;
                    row_name := row_name r; row_verified := false;
                    row_created_at := row_created_at r |}
            else r)
    (users w)
    (users (world (run (ports (deployed next_id)) Jobs.cleanupUnverified w))) /\
  now (world (run (ports (deployed next_id)) Jobs.cleanupUnverified w)) = now w /\
  console (world (run (ports (deployed next_id)) Jobs.cleanupUnverified w)) = console w /\
  signups (world (run (ports (deployed next_id)) Jobs.cleanupUnverified w)) = signups w /\
  ids (world (run (ports (deployed next_id)) Jobs.cleanupUnverified w)) = ids w.
Proof.
  intros Hrange.
  assert (threshold (Js.Int 24) (now w) = Returned (now w - 86400000000)%Z) as Hth.
  { unfold threshold.
    change (hours_interval (Js.Int 24)) with (@Returned Z 86400000000%Z).
    unfold Pg.timestamp_minus, Pg.is_timestamp.
    destruct Hrange as [Hlo%Z.leb_le Hhi%Z.ltb_lt]. by rewrite Hlo, Hhi. }
  assert (execute (DisableUnverified (Js.Int 24)) (now w) (users w)
          = Returned ({| returned := [];
                         affected := List.filter (unverified_before (now w - 86400000000))
                                                 (users w) |},
                      update_where (unverified_before (now w - 86400000000))
                                   (set_verified false) (users w))) as Hexe.
  { unfold execute. by rewrite Hth. }
  rewrite job_world. unfold Jobs.cleanupUnverified.
  rewrite ProgFacts.run_await_ret, deployed_disable, Hth.
  split; [done|]. split; [done|]. split.
  { unfold Sql.disableUnverifiedOlderThan. rewrite ProgFacts.run_await_ret.
    by destruct (database _ w) as [[r | e] w1]. }
  split.
  { eexists. rewrite Hexe, disable_unchanged. by split. }
  split.
  { intros r Hr. rewrite Hexe. split.
    - intros [Hv Hc%Z.ltb_lt]. eexists _, _. split; [done|]. simpl.
      apply filter_In. split; [done|]. unfold unverified_before. by rewrite Hv, Hc.
    - intros (a & t & [= <- _] & Hin). simpl in Hin.
      apply filter_In in Hin as [_ [Hv%negb_true_iff Hc%Z.ltb_lt]%andb_true_iff]. done. }
  split; [|done]. clear.
  induction (users w) as [|r t IH]; constructor; [|exact IH].
  destruct r as [i e n [] c]; simpl; [done|]. by destruct (c <? _)%Z.
Qed.

Lemma cleanup_touches_only_stale_flags_witness :
  let w := mkWorld [mkRow "u1" "a@b.com" None false 0;
                    mkRow "u2" "c@d.com" None false 5000000000;
                    mkRow "u3" "e@f.com" (Some "E") true 0]
                   90000000000%Z [] [] tt in
  exists a,
    execute (DisableUnverified (Js.Int 24)) (now w) (users w)
    = Returned (a, users (world (run (ports (deployed Test.next_id))
                                    Jobs.cleanupUnverified w))) /\
    affected a = [mkRow "u1" "a@b.com" None false 0].
Proof.
  refine (proj1 (proj2 (proj2 (proj2
    (cleanup_touches_only_stale_flags Test.next_id
       (mkWorld [mkRow "u1" "a@b.com" None false 0;
                 mkRow "u2" "c@d.com" None false 5000000000;
                 mkRow "u3" "e@f.com" (Some "E") true 0]
                90000000000%Z [] [] tt) _))))).
  split; by vm_compute.
Defined.

(** C8: the sweep leaves the world as it is, for every [hours]: so does a
    second sweep, and so does the job. *)
Theorem sweep_changes_nothing {G} (next_id : G -> string * G) hours (w : World G) :
  sweep hours w = w /\
  sweep hours (sweep hours w) = sweep hours w /\
  world (run (ports (deployed next_id)) Jobs.cleanupUnverified w) = w.
Proof.
  repeat split; [apply sweep_world | by rewrite !sweep_world | apply job_world].
Qed.

(** C9, as stated, fails: with 3000000000 for [hours] the interval is out
    of range, with 60000000 the timestamp is (on the first day of 2000,
    4845 BC is asked for); the server refuses the UPDATE, [rawExec]
    rejects, and the adapter throws instead of returning 0. *)
Lemma sweep_throws_when_the_update_is_refused :
  disableUnverifiedOlderThan UserRepoSQL (Js.Int 3000000000) (empty_world tt 0)
  = (Threw (DatabaseError "22015"), empty_world tt 0) /\
  disableUnverifiedOlderThan UserRepoSQL (Js.Int 60000000) (empty_world tt 0)
  = (Threw (DatabaseError "22008"), empty_world tt 0) /\
  ~ (forall hours (w : World unit),
       (disableUnverifiedOlderThan UserRepoSQL hours w).1 = Returned 0%Z).
Proof.
  repeat split. intros Hall.
  specialize (Hall (Js.Int 3000000000) (empty_world tt 0)). by vm_compute in Hall.
Qed.

(** C9, amended: the adapter's sweep returns 0 whenever the server carries
    its UPDATE out, however many rows the UPDATE has updated; when the
    server refuses the UPDATE, the sweep throws the server's error.  So it
    returns no number but 0, and the world is the same in either case. *)
Theorem sweep_returns_zero_when_update_succeeds {G} hours (w : World G) :
  (forall a t,
     execute (DisableUnverified hours) (now w) (users w) = Returned (a, t) ->
     disableUnverifiedOlderThan UserRepoSQL hours w = (Returned 0%Z, w)) /\
  (forall x,
     execute (DisableUnverified hours) (now w) (users w) = Threw x ->
     disableUnverifiedOlderThan UserRepoSQL hours w = (Threw x, w)) /\
  (forall n,
     (disableUnverifiedOlderThan UserRepoSQL hours w).1 = Returned n -> n = 0%Z).
Proof.
  change (disableUnverifiedOlderThan UserRepoSQL hours w)
    with (on_database (Sql.disableUnverifiedOlderThan hours) w).
  rewrite disable_eq. unfold execute.
  destruct (threshold hours (now w)) as [th | x]; repeat split; try done.
  - by intros y [= <-].
  - by intros n [= <-].
Qed.

(** ... also when the UPDATE has updated rows: here, two. *)
Lemma sweep_returns_zero_when_update_succeeds_witness :
  let w := mkWorld [mkRow "u1" "a@b.com" None false 0;
                    mkRow "u2" "c@d.com" None false 5] 90000000000%Z [] [] tt in
  exists a t,
    execute (DisableUnverified (Js.Int 24)) (now w) (users w) = Returned (a, t) /\
    length (affected a) = 2%nat /\
    disableUnverifiedOlderThan UserRepoSQL (Js.Int 24) w = (Returned 0%Z, w).
Proof.
  eexists _, _. split; [reflexivity|]. split; [reflexivity|].
  exact (proj1 (sweep_returns_zero_when_update_succeeds (Js.Int 24)
                  (mkWorld [mkRow "u1" "a@b.com" None false 0;
                            mkRow "u2" "c@d.com" None false 5] 90000000000%Z [] [] tt))
               _ _ eq_refl).
Defined.

End Table.

(* ===================================================================== *)
(** * Further properties: the email, before it reaches a port             *)
(* ===================================================================== *)


Section Email.
Import Regex RegexFacts EmailFormat EmailFormatFacts RegisterUser NormalizeFacts.

(** X2: normalization is idempotent: what [exec] looks up and stores is a
    fixed point of [trim().toLowerCase()], so a stored email, handed in
    again as it is stored, is looked up under the same key. *)
Theorem normalize_idempotent raw : normalize (normalize raw) = normalize raw.
Proof.
  unfold normalize. by rewrite trim_lower, toLowerCase_idem, trim_idem.
Qed.

Lemma count_at_app s1 s2 : count_at (s1 +:+ s2) = (count_at s1 + count_at s2)%nat.
Proof.
  induction s1 as [|c s1 IH]; [done|].
  rewrite str_app_cons. simpl. rewrite IH. lia.
Qed.

Lemma no_at_count s : no_at s = true -> count_at s = 0%nat.
Proof.
  induction s as [|c s IH]; simpl; [done|].
  intros [Hc Hs]%andb_true_iff. destruct (Ascii.eqb c "@"); [done|]. auto.
Qed.

Lemma length_app_str s1 s2 :
  String.length (s1 +:+ s2) = (String.length s1 + String.length s2)%nat.
Proof.
  induction s1 as [|c s1 IH]; [done|]. rewrite str_app_cons. simpl. by rewrite IH.
Qed.

Lemma part_length s : part s -> (1 <= String.length s)%nat.
Proof. intros [Hne _]. destruct s; simpl; [done | lia]. Qed.

Lemma Matches_email_parts e : Matches email_pattern e -> well_formed e.
Proof.
  unfold email_pattern, well_formed.
  intros (l & ? & -> & Hl%plus_non_at &
          (? & ? & -> & ->%Matches_lit &
           (d & ? & -> & Hd%plus_non_at &
            (? & t & -> & ->%Matches_lit & Ht%plus_non_at)
              %Matches_cat_inv)%Matches_cat_inv)%Matches_cat_inv)%Matches_cat_inv.
  by exists l, d, t.
Qed.

(** X3: an email the pattern accepts has exactly one at sign and at least
    five code units. *)
Theorem accepted_email_has_one_at e :
  full_match email_pattern e = true ->
  count_at e = 1%nat /\ (5 <= String.length e)%nat.
Proof.
  intros (l & d & t & -> & Hl & Hd & Ht)%full_match_iff%Matches_email_parts.
  rewrite !count_at_app, !length_app_str.
  rewrite (no_at_count l), (no_at_count d), (no_at_count t)
    by (by apply Hl || by apply Hd || by apply Ht).
  apply part_length in Hl, Hd, Ht. simpl. lia.
Qed.

Lemma accepted_email_has_one_at_witness :
  count_at "a@b.c" = 1%nat /\ (5 <= String.length "a@b.c")%nat.
Proof. exact (accepted_email_has_one_at "a@b.c" eq_refl). Defined.

(** X4: an email that is empty or all white space is refused with
    INVALID_EMAIL before any port is called, whatever the ports are. *)
Theorem blank_email_is_invalid {W} (h : Handler PortCall PortResp W) input w :
  all_white_space (input_email input) = true ->
  run h (exec input) w = (Threw (Error "INVALID_EMAIL"), w, []).
Proof.
  intros Hblank. unfold exec, normalize, Js.trim.
  by rewrite (trimStart_blank _ Hblank).
Qed.

Lemma blank_email_is_invalid_witness :
  run (ports Test.deps)
      (exec {| input_email := "   "; input_name := Some "Alice" |}) ∅
  = (Threw (Error "INVALID_EMAIL"), ∅, []).
Proof.
  exact (blank_email_is_invalid (ports Test.deps)
           {| input_email := "   "; input_name := Some "Alice" |} ∅ eq_refl).
Defined.

End Email.

(* ===================================================================== *)
(** * Further properties: the SQL adapter                                 *)
(* ===================================================================== *)

Module AdapterFacts.
Import Db DbFacts.

Lemma existsb_id_false i (t : list Row) :
  existsb (fun r => String.eqb (row_id r) i) t = false <-> ~ In i (map row_id t).
Proof.
  rewrite <- not_true_iff_false, existsb_exists, in_map_iff.
  split; intros Hno (r & H1 & H2); apply Hno; exists r.
  - split; [done|]. by rewrite H1, String.eqb_refl.
  - apply String.eqb_eq in H2. done.
Qed.

Lemma existsb_email_iff e (t : list Row) :
  existsb (fun r => String.eqb (row_email r) e) t = false <-> ~ In e (map row_email t).
Proof.
  rewrite <- not_true_iff_false, existsb_exists, in_map_iff.
  split; intros Hno (r & H1 & H2); apply Hno; exists r.
  - split; [done|]. by rewrite H1, String.eqb_refl.
  - apply String.eqb_eq in H2. done.
Qed.

Lemma select_by_email_none e (t : list Row) :
  select_by_email e t = None <-> ~ In e (map row_email t).
Proof.
  unfold select_by_email. split.
  - intros Hnone (r & <- & Hin)%in_map_iff.
    apply (find_none _ _ Hnone) in Hin. simpl in Hin.
    by rewrite String.eqb_refl in Hin.
  - intros Hno. destruct (find _ t) as [r|] eqn:Hfind; [|done].
    apply find_some in Hfind as [Hin Heq%String.eqb_eq].
    destruct Hno. rewrite <- Heq. by apply in_map.
Qed.

Lemma select_by_email_some e (t : list Row) row :
  select_by_email e t = Some row -> In row t /\ row_email row = e.
Proof.
  unfold select_by_email. intros [Hin Heq%String.eqb_eq]%find_some. done.
Qed.

Lemma select_by_email_app e (t1 t2 : list Row) :
  select_by_email e (t1 ++ t2) =
  match select_by_email e t1 with
  | Some r => Some r
  | None => select_by_email e t2
  end.
Proof.
  unfold select_by_email. induction t1 as [|r t1 IH]; simpl; [done|].
  by destruct (String.eqb (row_email r) e).
Qed.

End AdapterFacts.

Section Adapter.
Import Db DbFacts AdapterFacts.
Context {G : Type}.

(** X5: [findByEmail] of the SQL adapter only reads: it leaves the world as
    it is, also when it throws.  It throws, an error of the database, when
    the server refuses the email as a text (U+0000 in it, a gigabyte of
    it).  For an email the server takes it answers null exactly when no
    stored row has the email, and a record it answers has the email asked
    for and the identifier, name and flag of a stored row. *)
Theorem findByEmail_reads_the_table e (w : World G) :
  (findByEmail UserRepoSQL e w).2 = w /\
  (Pg.accepts e = false ->
   exists code, (findByEmail UserRepoSQL e w).1 = Threw (DatabaseError code)) /\
  (Pg.accepts e = true ->
   exists o,
     (findByEmail UserRepoSQL e w).1 = Returned o /\
     (o = None <-> ~ In e (map row_email (users w))) /\
     match o with
     | None => True
     | Some u =>
         email u = e /\
         exists row, In row (users w) /\ row_id row = id u /\ row_email row = e /\
                     row_name row = name u /\ row_verified row = verified u
     end).
Proof.
  rewrite repo_findByEmail.
  destruct (Pg.texts_error [e]) as [x|] eqn:Herr.
  - split; [done|]. split.
    + intros _. apply texts_error_code in Herr as [code ->]. by exists code.
    + intros Hacc%texts_error_one. congruence.
  - split; [done|]. split.
    + intros Hno. apply texts_error_one in Herr. congruence.
    + intros _. eexists. split; [reflexivity|].
      destruct (select_by_email e (users w)) as [row|] eqn:Hsel; simpl.
      * apply select_by_email_some in Hsel as [Hin Heq]. split.
        -- split; [done|]. intros Hno. destruct Hno. rewrite <- Heq. by apply in_map.
        -- split; [done|]. by exists row.
      * split; [|done]. split; [intros _|done]. by apply select_by_email_none.
Qed.

(** X6: what [create] of the SQL adapter has stored, [findByEmail] gives
    back: after a [create] that returned, the lookup of the record's email
    answers the record itself, field by field, and the lookup of any other
    email answers what it answered before. *)
Theorem create_then_findByEmail u (w w' : World G) :
  create UserRepoSQL u w = (Returned tt, w') ->
  findByEmail UserRepoSQL (email u) w' = (Returned (Some u), w') /\
  (forall e, e <> email u ->
             (findByEmail UserRepoSQL e w').1 = (findByEmail UserRepoSQL e w).1).
Proof.
  rewrite repo_create.
  destruct (insert_user _ _ _ _ _ _) as [[[] | x] t] eqn:Hins; [|discriminate].
  intros [= <-].
  pose proof (insert_user_accepted _ _ _ _ _ _ _ Hins) as (_ & Hacc%texts_error_one & _).
  apply insert_user_cases in Hins as [[_ [x [=]]] | (_ & -> & Hfresh)].
  apply select_by_email_none in Hfresh. split.
  - rewrite repo_findByEmail, Hacc. simpl. rewrite select_by_email_app, Hfresh.
    unfold select_by_email. simpl. rewrite String.eqb_refl. by destruct u.
  - intros e Hne. rewrite !repo_findByEmail.
    destruct (Pg.texts_error [e]); [done|]. simpl. rewrite select_by_email_app.
    destruct (select_by_email e (users w)); [done|].
    unfold select_by_email. simpl.
    destruct (String.eqb_spec (email u) e); [congruence | done].
Qed.

End Adapter.

Lemma findByEmail_reads_the_table_witness :
  exists code,
    (findByEmail UserRepoSQL (String "a" (String "000" "@b.c"))
                 (mkWorld [Db.mkRow "u1" "a@b.c" None false 0] 3 [] [] tt)).1
    = Threw (DatabaseError code).
Proof.
  exact (proj1 (proj2 (findByEmail_reads_the_table
                         (String "a" (String "000" "@b.c"))
                         (mkWorld [Db.mkRow "u1" "a@b.c" None false 0] 3 [] [] tt)))
               eq_refl).
Defined.

Lemma create_then_findByEmail_witness :
  let u := {| id := "u1"; email := "a@b.com"; name := Some "Al"; verified := false |} in
  let w := empty_world tt 7 in
  findByEmail UserRepoSQL (email u) (create UserRepoSQL u w).2
  = (Returned (Some u), (create UserRepoSQL u w).2).
Proof.
  exact (proj1 (create_then_findByEmail
                  {| id := "u1"; email := "a@b.com"; name := Some "Al";
                     verified := false |}
                  (empty_world tt 7) _ eq_refl)).
Defined.


(* ===================================================================== *)
(** * Further properties: one request to the deployed service             *)
(* ===================================================================== *)

Module DeployedRuns.
Import Regex RegisterUser Db DbFacts DeployedFacts AdapterFacts ProgFacts.

Section Runs.
Context {G : Type} (next_id : G -> string * G).

Lemma port_find e (w : World G) :
  ports (deployed next_id) (FindByEmail e) w =
  match Pg.texts_error [e] with
  | Some x => (Threw x, w)
  | None => (Returned (selected <$> select_by_email e (users w)), w)
  end.
Proof. apply findByEmail_eq. Qed.

Lemma port_create u (w : World G) :
  ports (deployed next_id) (Create u) w =
  match insert_user (id u) (email u) (name u) (verified u) (now w) (users w) with
  | (Returned _, t) => (Returned tt, set_users t w)
  | (Threw x, _) => (Threw x, w)
  end.
Proof. apply create_eq. Qed.

Lemma port_newId (w : World G) i g :
  next_id (ids w) = (i, g) ->
  ports (deployed next_id) NewId w = (Returned i, set_ids g w).
Proof. simpl. by intros ->. Qed.

(** A run of [exec] over the deployed adapters, written out. *)
Lemma deployed_exec_run input (w : World G) i g :
  next_id (ids w) = (i, g) ->
  run (ports (deployed next_id)) (exec input) w =
  if negb (full_match email_pattern (normalize (input_email input)))
  then (Threw (Error "INVALID_EMAIL"), w, [])
  else
    match Pg.texts_error [normalize (input_email input)] with
    | Some x =>
        (Threw x, w, [Called (FindByEmail (normalize (input_email input))) (Some x)])
    | None =>
    match select_by_email (normalize (input_email input)) (users w) with
    | Some _ =>
        (Threw (Error "EMAIL_TAKEN"), w,
         [Called (FindByEmail (normalize (input_email input))) None])
    | None =>
        match insert_user i (normalize (input_email input)) (input_name input)
                          false (now w) (users w) with
        | (Returned _, t) =>
            (Returned (mkUser i (normalize (input_email input)) (input_name input) false),
             mkWorld t (now w)
                     (console w ++ [{| log_to := normalize (input_email input);
                                       log_name := input_name input |}])%list
                     (signups w) g,
             [Called (FindByEmail (normalize (input_email input))) None;
              Called NewId None;
              Called (Create (mkUser i (normalize (input_email input))
                                     (input_name input) false)) None;
              Called (SendWelcome (normalize (input_email input)) (input_name input))
                     None])
        | (Threw x, _) =>
            (Threw x, mkWorld (users w) (now w) (console w) (signups w) g,
             [Called (FindByEmail (normalize (input_email input))) None;
              Called NewId None;
              Called (Create (mkUser i (normalize (input_email input))
                                     (input_name input) false)) (Some x)])
        end
    end
    end.
Proof.
  intros Hid. unfold exec.
  destruct (full_match _ _); [|done]. cbn [negb].
  rewrite run_await, port_find.
  destruct (Pg.texts_error _) as [x|]; [done|].
  destruct (select_by_email _ _) as [row|]; [done|]. cbn [fmap option_fmap option_map].
  rewrite run_await, (port_newId w i g Hid).
  rewrite run_await, port_create. cbn [id email name verified users now set_ids].
  by destruct (insert_user _ _ _ _ _ _) as [[[] | x] t].
Qed.


Lemma insert_user_stored_id i e n v now (t : list Row) :
  Pg.accepts i = true -> Pg.accepts e = true -> Pg.accepts_opt n = true ->
  In i (map row_id t) ->
  insert_user i e n v now t = (Threw (UniqueViolation "users_pkey"), t).
Proof.
  intros Hai Hae Han Hi. unfold insert_user.
  rewrite (proj2 (insert_params_accepted i e n)) by done.
  destruct (existsb _ t) eqn:Hex; [done|]. by apply existsb_id_false in Hex.
Qed.

End Runs.

End DeployedRuns.

Section OneRequest.
Import Regex RegisterUser Db DbFacts AdapterFacts DeployedRuns ProgFacts.
Context {G : Type} (next_id : G -> string * G).

(** X7: a repeated identifier.  When the email is well-formed and not stored
    but the identifier the generator gives is stored, and the server takes
    the email, the identifier and the name as texts, [exec] throws the
    violation of the primary key after the lookup: no row is written, no
    welcome is sent, and the identifier is used up. *)
Theorem id_collision_fails_after_lookup input (w : World G) i g :
  next_id (ids w) = (i, g) ->
  full_match email_pattern (normalize (input_email input)) = true ->
  Pg.accepts (normalize (input_email input)) = true ->
  Pg.accepts i = true ->
  Pg.accepts_opt (input_name input) = true ->
  ~ In (normalize (input_email input)) (map row_email (users w)) ->
  In i (map row_id (users w)) ->
  run (ports (deployed next_id)) (exec input) w
  = (Threw (UniqueViolation "users_pkey"),
     mkWorld (users w) (now w) (console w) (signups w) g,
     [Called (FindByEmail (normalize (input_email input))) None;
      Called NewId None;
      Called (Create (mkUser i (normalize (input_email input)) (input_name input) false))
             (Some (UniqueViolation "users_pkey"))]).
Proof.
  intros Hid Hfmt Hae Hai Han Hemail%select_by_email_none Hstored.
  rewrite (deployed_exec_run next_id input w i g Hid), Hfmt, Hemail.
  rewrite (proj2 (texts_error_one _) Hae). simpl.
  by rewrite (insert_user_stored_id _ _ _ _ _ _ Hai Hae Han Hstored).
Qed.


(** X9: a second registration is refused.  After a run of [exec] that
    returned, any input whose email normalizes to the same string (other
    case, other white space around it) is refused with EMAIL_TAKEN after the
    lookup, and the world stays as the first run left it. *)
Theorem duplicate_registration_is_refused input1 input2 (w : World G) u :
  result (run (ports (deployed next_id)) (exec input1) w) = Returned u ->
  normalize (input_email input2) = normalize (input_email input1) ->
  run (ports (deployed next_id)) (exec input2)
      (world (run (ports (deployed next_id)) (exec input1) w))
  = (Threw (Error "EMAIL_TAKEN"),
     world (run (ports (deployed next_id)) (exec input1) w),
     [Called (FindByEmail (normalize (input_email input1))) None]).
Proof.
  destruct (next_id (ids w)) as [i g] eqn:Hid.
  rewrite (deployed_exec_run next_id input1 w i g Hid).
  destruct (full_match email_pattern (normalize (input_email input1))) eqn:Hfmt;
    simpl; [|discriminate].
  destruct (Pg.texts_error _) as [x|] eqn:Herr; [discriminate|].
  destruct (select_by_email _ (users w)) eqn:Hsel; [discriminate|].
  destruct (insert_user _ _ _ _ _ _) as [[[] | x] t] eqn:Hins; [|discriminate].
  intros _ Hsame. unfold world. simpl.
  apply insert_user_cases in Hins as [[_ [x [=]]] | (_ & -> & _)].
  destruct (next_id g) as [i2 g2] eqn:Hid2.
  erewrite (deployed_exec_run next_id input2 _ i2 g2); [|exact Hid2].
  rewrite Hsame, Hfmt, Herr. simpl.
  rewrite select_by_email_app, Hsel. unfold select_by_email. simpl.
  by rewrite String.eqb_refl.
Qed.

(** X25: a text the server refuses fails the registration, with the error
    of the database.  For a well-formed email: when the server does not
    take the email (U+0000 in it), the lookup throws, before an identifier
    is asked for, and the world is unchanged; when it takes the email,
    which is not stored, but not the identifier or the name, the INSERT
    throws: no row is written, no welcome is sent, and the identifier is
    used up. *)
Theorem refused_text_fails_registration input (w : World G) i g :
  next_id (ids w) = (i, g) ->
  full_match email_pattern (normalize (input_email input)) = true ->
  (Pg.accepts (normalize (input_email input)) = false ->
   exists code,
     run (ports (deployed next_id)) (exec input) w
     = (Threw (DatabaseError code), w,
        [Called (FindByEmail (normalize (input_email input)))
                (Some (DatabaseError code))])) /\
  (Pg.accepts (normalize (input_email input)) = true ->
   ~ In (normalize (input_email input)) (map row_email (users w)) ->
   Pg.accepts i = false \/ Pg.accepts_opt (input_name input) = false ->
   exists code,
     run (ports (deployed next_id)) (exec input) w
     = (Threw (DatabaseError code),
        mkWorld (users w) (now w) (console w) (signups w) g,
        [Called (FindByEmail (normalize (input_email input))) None;
         Called NewId None;
         Called (Create (mkUser i (normalize (input_email input))
                                (input_name input) false))
                (Some (DatabaseError code))])).
Proof.
  intros Hid Hfmt.
  rewrite (deployed_exec_run next_id input w i g Hid), Hfmt. cbn [negb]. split.
  - intros Hno. destruct (texts_error_refused _ Hno) as [x Hx]. rewrite Hx.
    apply texts_error_code in Hx as [code ->]. by exists code.
  - intros Hae Hnew%select_by_email_none Hbad.
    rewrite (proj2 (texts_error_one _) Hae), Hnew. unfold insert_user.
    destruct (Pg.texts_error (insert_params _ _ _)) as [x|] eqn:Herr.
    + apply texts_error_code in Herr as [code ->]. by exists code.
    + apply insert_params_accepted in Herr as (? & _ & ?). destruct Hbad; congruence.
Qed.

End OneRequest.

Section OneRequestWitnesses.
Import RegisterUser.

Lemma id_collision_fails_after_lookup_witness :
  result (run (ports (deployed Test.next_id))
              (exec {| input_email := "c@d.com"; input_name := None |})
              (mkWorld [Db.mkRow "id-1" "a@b.com" None false 0] 3 [] [] tt))
  = Threw (UniqueViolation "users_pkey").
Proof.
  exact (f_equal result
           (id_collision_fails_after_lookup Test.next_id
              {| input_email := "c@d.com"; input_name := None |}
              (mkWorld [Db.mkRow "id-1" "a@b.com" None false 0] 3 [] [] tt)
              "id-1" tt eq_refl eq_refl eq_refl eq_refl eq_refl
              (fun H => match H with or_introl E => ltac:(discriminate E)
                                   | or_intror F => F end)
              (or_introl eq_refl))).
Defined.


Lemma duplicate_registration_is_refused_witness :
  result (run (ports (deployed Test.fresh_id))
              (exec {| input_email := "  AL@b.COM "; input_name := None |})
              (world (run (ports (deployed Test.fresh_id))
                          (exec {| input_email := "al@b.com"; input_name := Some "Al" |})
                          (empty_world 0%nat 0))))
  = Threw (Error "EMAIL_TAKEN").
Proof.
  exact (f_equal result
           (duplicate_registration_is_refused Test.fresh_id
              {| input_email := "al@b.com"; input_name := Some "Al" |}
              {| input_email := "  AL@b.COM "; input_name := None |}
              (empty_world 0%nat 0) _ eq_refl eq_refl)).
Defined.

Lemma refused_text_fails_registration_witness :
  exists code,
    run (ports (deployed Test.next_id))
        (exec {| input_email := "a@b.c";
                 input_name := Some (String "A" (String "000" "l")) |})
        (empty_world tt 0)
    = (Threw (DatabaseError code), empty_world tt 0,
       [Called (FindByEmail "a@b.c") None;
        Called NewId None;
        Called (Create (mkUser "id-1" "a@b.c"
                               (Some (String "A" (String "000" "l"))) false))
               (Some (DatabaseError code))]).
Proof.
  exact (proj2 (refused_text_fails_registration Test.next_id
                  {| input_email := "a@b.c";
                     input_name := Some (String "A" (String "000" "l")) |}
                  (empty_world tt 0) "id-1" tt eq_refl eq_refl)
               eq_refl (fun H => H) (or_intror eq_refl)).
Defined.

End OneRequestWitnesses.

(* ===================================================================== *)
(** * Further properties: what no program and no history undoes           *)
(* ===================================================================== *)

Module InvariantFacts.
Import Db DbFacts AdapterFacts.

(** What every call keeps, every program keeps. *)
Lemma run_preserves {C R W A} (P : W -> Prop) (h : Handler C R W) :
  (forall c w, P w -> P (h c w).2) ->
  forall (p : Prog C R A) w, P w -> P (world (run h p w)).
Proof.
  intros Hcall p. induction p as [a | e | c k IH]; intros w Hw; simpl; try done.
  specialize (Hcall c w Hw).
  destruct (h c w) as [[r | e] w1]; simpl in *; [|done].
  specialize (IH r w1 Hcall).
  by destruct (run h (k r) w1) as [[o w2] tr].
Qed.

Lemma insert_user_returns i e n v now (t t' : list Row) :
  insert_user i e n v now t = (Returned tt, t') ->
  t' = (t ++ [mkRow i e n v now])%list /\
  ~ In i (map row_id t) /\ ~ In e (map row_email t).
Proof.
  unfold insert_user.
  destruct (Pg.texts_error _) as [x|]; [discriminate|].
  destruct (existsb _ t) eqn:Hid; [discriminate|].
  destruct (existsb (fun r => String.eqb (row_email r) e) t) eqn:Hem; [discriminate|].
  intros [= <-]. by rewrite <- existsb_id_false, <- existsb_email_iff.
Qed.

Lemma insert_user_table i e n v now (t : list Row) :
  (insert_user i e n v now t).2 = t \/
  (insert_user i e n v now t).2 = (t ++ [mkRow i e n v now])%list /\
  ~ In i (map row_id t) /\ ~ In e (map row_email t).
Proof.
  destruct (insert_user i e n v now t) as [[[] | x] t'] eqn:Hins.
  - right. by apply insert_user_returns in Hins.
  - left. by apply insert_user_cases in Hins as [[-> _] | ([=] & _)].
Qed.

Lemma NoDup_snoc {A} (l : list A) (x : A) : NoDup l -> ~ In x l -> NoDup (l ++ [x]).
Proof.
  intros Hl Hx. apply NoDup_app. repeat split; [done | | apply NoDup_singleton].
  intros y Hy ->%list_elem_of_singleton. by apply Hx, list_elem_of_In.
Qed.

Section Service.
Context {G : Type} (next_id : G -> string * G).

(** What a call of the service does to the table: nothing, or one row more,
    with an identifier and an email that were not stored. *)
Lemma service_call_table c (w : World G) :
  users (Http.service next_id c w).2 = users w \/
  exists row,
    users (Http.service next_id c w).2 = (users w ++ [row])%list /\
    ~ In (row_id row) (map row_id (users w)) /\
    ~ In (row_email row) (map row_email (users w)).
Proof.
  destruct c as [[u | e | hrs | | to nm] | evt]; auto.
  - change (Http.service next_id (Port (Create u)) w)
      with (on_database (Sql.create u) w).
    rewrite create_eq.
    destruct (insert_user_table (id u) (email u) (name u) (verified u) (now w) (users w))
      as [Hsame | (Hnew & Hi & He)];
      destruct (insert_user _ _ _ _ _ _) as [[[] | x] t]; simpl in *; subst; eauto.
  - change (Http.service next_id (Port (FindByEmail e)) w)
      with (on_database (Sql.findByEmail e) w).
    rewrite findByEmail_eq. left. by destruct (Pg.texts_error _).
  - change (Http.service next_id (Port (DisableUnverifiedOlderThan hrs)) w)
      with (on_database (Sql.disableUnverifiedOlderThan hrs) w).
    rewrite disable_eq. left. by destruct (threshold _ _).
  - left. simpl. by destruct (next_id (ids w)).
Qed.

Lemma service_call_unique c (w : World G) :
  NoDup (map row_id (users w)) /\ NoDup (map row_email (users w)) ->
  NoDup (map row_id (users (Http.service next_id c w).2)) /\
  NoDup (map row_email (users (Http.service next_id c w).2)).
Proof.
  intros [Hi He].
  destruct (service_call_table c w) as [-> | (row & -> & Hni & Hne)]; [done|].
  rewrite !map_app. simpl. split; by apply NoDup_snoc.
Qed.

Lemma service_call_prefix t0 c (w : World G) :
  t0 `prefix_of` users w -> t0 `prefix_of` users (Http.service next_id c w).2.
Proof.
  intros Hpre.
  destruct (service_call_table c w) as [-> | (row & -> & _)]; [done|].
  by apply prefix_app_r.
Qed.

(** What every call of the service and every move of the clock keep, every
    step of a history keeps. *)
Lemma step_preserves (P : World G -> Prop) :
  (forall c w, P w -> P (Http.service next_id c w).2) ->
  (forall t w, P w -> P (set_now t w)) ->
  forall op w, P w -> P (step next_id op w).
Proof.
  intros Hcall Htick op w Hw.
  assert (forall A (p : Prog PortCall PortResp A) v,
            P v -> P (world (run (ports (deployed next_id)) p v))) as Hports.
  { intros A p v Hv. apply run_preserves; [|done].
    intros c v' Hv'. apply (Hcall (Port c) v' Hv'). }
  destruct op as [input | req | n | | t]; unfold step; auto.
  - by apply run_preserves.
  - destruct (signups w !! n); auto.
Qed.

Lemma run_ops_preserves (P : World G -> Prop) :
  (forall c w, P w -> P (Http.service next_id c w).2) ->
  (forall t w, P w -> P (set_now t w)) ->
  forall ops w, P w -> P (run_ops next_id ops w).
Proof.
  intros Hcall Htick ops. induction ops as [|op ops IH]; intros w Hw; [done|].
  simpl. by apply IH, step_preserves.
Qed.

End Service.

End InvariantFacts.

Section Keys.
Import Db InvariantFacts.
Context {G : Type} (next_id : G -> string * G).

(** X10: the keys of the table guard every write.  Whatever program the
    delivery layer runs over the deployed adapters (a request, several
    requests taking turns at their awaits, a job), a table without repeated
    identifiers and without repeated emails stays so. *)
Theorem any_program_keeps_keys_unique {A} (p : Prog HttpCall HttpResp A) (w : World G) :
  NoDup (map row_id (users w)) /\ NoDup (map row_email (users w)) ->
  NoDup (map row_id (users (world (run (Http.service next_id) p w)))) /\
  NoDup (map row_email (users (world (run (Http.service next_id) p w)))).
Proof.
  apply (run_preserves
           (fun v => NoDup (map row_id (users v)) /\ NoDup (map row_email (users v)))).
  apply service_call_unique.
Qed.

(** X11: in every history that starts with the empty table no two stored
    rows have the same identifier, whatever the generator does. *)
Theorem ids_stay_unique g t0 ops :
  NoDup (map row_id (users (run_ops next_id ops (empty_world g t0)))).
Proof.
  apply (run_ops_preserves next_id
           (fun v => NoDup (map row_id (users v)) /\ NoDup (map row_email (users v)))).
  - apply service_call_unique.
  - done.
  - split; apply NoDup_nil_2.
Qed.

(** X12: nothing is ever deleted or rewritten.  The table before a program
    or a history of the service is a prefix of the table after it: every
    row is still there, in its place, with all its fields. *)
Theorem rows_are_never_removed (w : World G) :
  (forall A (p : Prog HttpCall HttpResp A),
     users w `prefix_of` users (world (run (Http.service next_id) p w))) /\
  (forall ops, users w `prefix_of` users (run_ops next_id ops w)).
Proof.
  split.
  - intros A p. apply (run_preserves (fun v => users w `prefix_of` users v)); [|done].
    intros c v. apply service_call_prefix.
  - intros ops.
    apply (run_ops_preserves next_id (fun v => users w `prefix_of` users v)); try done.
    intros c v. apply service_call_prefix.
Qed.

End Keys.

Section KeysWitnesses.
Import RegisterUser.

Lemma any_program_keeps_keys_unique_witness :
  NoDup (map Db.row_id
           (users (world (run (Http.service Test.fresh_id)
                              (Http.register {| input_email := "a@b.com";
                                                input_name := None |})
                              (empty_world 0%nat 0))))).
Proof.
  exact (proj1 (any_program_keeps_keys_unique Test.fresh_id
                  (Http.register {| input_email := "a@b.com"; input_name := None |})
                  (empty_world 0%nat 0)
                  (conj (NoDup_nil_2) (NoDup_nil_2)))).
Defined.

End KeysWitnesses.

(* ===================================================================== *)
(** * Further properties: the console and the topic follow the table      *)
(* ===================================================================== *)

Module TrailFacts.
Import Regex RegisterUser Db DbFacts AdapterFacts DeployedRuns ProgFacts.

Section Trail.
Context {G : Type} (next_id : G -> string * G).

(** A run of [exec] over the deployed adapters throws and leaves table,
    console and topic alone, or returns and adds one row and its welcome. *)
Lemma exec_effect input (w : World G) :
  (exists x, result (run (ports (deployed next_id)) (exec input) w) = Threw x /\
             users (world (run (ports (deployed next_id)) (exec input) w)) = users w /\
             console (world (run (ports (deployed next_id)) (exec input) w)) = console w /\
             signups (world (run (ports (deployed next_id)) (exec input) w)) = signups w) \/
  (exists i,
     result (run (ports (deployed next_id)) (exec input) w)
     = Returned (mkUser i (normalize (input_email input)) (input_name input) false) /\
     users (world (run (ports (deployed next_id)) (exec input) w))
     = (users w ++ [mkRow i (normalize (input_email input)) (input_name input)
                          false (now w)])%list /\
     console (world (run (ports (deployed next_id)) (exec input) w))
     = (console w ++ [{| log_to := normalize (input_email input);
                         log_name := input_name input |}])%list /\
     signups (world (run (ports (deployed next_id)) (exec input) w)) = signups w).
Proof.
  destruct (next_id (ids w)) as [i g] eqn:Hid.
  rewrite (deployed_exec_run next_id input w i g Hid).
  destruct (full_match _ _); simpl; [|by left; eexists].
  destruct (Pg.texts_error _) as [y|]; [by left; eexists|].
  destruct (select_by_email _ _); simpl; [by left; eexists|].
  destruct (insert_user _ _ _ _ _ _) as [[[] | x] t] eqn:Hins.
  - right. exists i. apply insert_user_cases in Hins as [[_ [idx [=]]] | (_ & -> & _)].
    done.
  - left. by exists x.
Qed.

(** The same for the handler, which adds the event when [exec] returned. *)
Lemma post_effect req (w : World G) :
  (users (world (run (Http.service next_id) (Http.register req) w)) = users w /\
   console (world (run (Http.service next_id) (Http.register req) w)) = console w /\
   signups (world (run (Http.service next_id) (Http.register req) w)) = signups w) \/
  (exists i,
     users (world (run (Http.service next_id) (Http.register req) w))
     = (users w ++ [mkRow i (normalize (input_email req)) (input_name req)
                          false (now w)])%list /\
     console (world (run (Http.service next_id) (Http.register req) w))
     = (console w ++ [{| log_to := normalize (input_email req);
                         log_name := input_name req |}])%list /\
     signups (world (run (Http.service next_id) (Http.register req) w))
     = (signups w ++ [{| userID := i; evt_email := normalize (input_email req) |}])%list).
Proof.
  unfold Http.register. rewrite run_bind, run_from_usecase.
  change (port_part (Http.service next_id)) with (ports (deployed next_id)).
  destruct (exec_effect req w) as [(x & Hres & Hu & Hc & Hs) | (i & Hres & Hu & Hc & Hs)];
    destruct (run (ports (deployed next_id)) (exec req) w) as [[o w1] tr];
    unfold result, world in *; simpl in *; subst o; simpl.
  - by left.
  - right. exists i. by rewrite Hu, Hc, Hs.
Qed.

Lemma trailed_grows (w w' : World G) rows logs evts :
  trailed w ->
  users w' = (users w ++ rows)%list ->
  console w' = (console w ++ logs)%list ->
  signups w' = (signups w ++ evts)%list ->
  Forall (fun r => In {| log_to := row_email r; log_name := row_name r |} (console w')) rows ->
  Forall (fun l => In (log_to l) (map row_email (users w'))) logs ->
  Forall (fun evt => In (userID evt, evt_email evt)
                        (map (fun r => (row_id r, row_email r)) (users w'))) evts ->
  trailed w'.
Proof.
  intros (Ha & Hw & Hd) Hu Hc Hs Hrows Hlogs Hevts. unfold trailed, announced, welcomed, addressed.
  rewrite Hs, Hc, Hu. rewrite Hu in Hlogs, Hevts. rewrite Hc in Hrows.
  repeat split; apply Forall_app; split; try done.
  - eapply Forall_impl; [exact Ha|]. intros evt Hin. simpl in Hin.
    rewrite map_app. apply in_or_app. by left.
  - eapply Forall_impl; [exact Hw|]. intros r Hin. simpl in Hin.
    apply in_or_app. by left.
  - eapply Forall_impl; [exact Hd|]. intros l Hin. simpl in Hin.
    rewrite map_app. apply in_or_app. by left.
Qed.

Lemma step_trailed op (w : World G) : trailed w -> trailed (step next_id op w).
Proof.
  intros Hw. destruct op as [input | req | n | | t]; unfold step.
  - destruct (exec_effect input w) as [(x & _ & Hu & Hc & Hs) | (i & _ & Hu & Hc & Hs)].
    + by apply (trailed_grows w _ [] [] []); rewrite ?app_nil_r.
    + eapply (trailed_grows w _ [_] [_] []); rewrite ?app_nil_r; try done.
      * repeat constructor. rewrite Hc. apply in_or_app. right. by left.
      * repeat constructor. rewrite Hu, map_app. apply in_or_app. right. by left.
  - destruct (post_effect req w) as [(Hu & Hc & Hs) | (i & Hu & Hc & Hs)].
    + by apply (trailed_grows w _ [] [] []); rewrite ?app_nil_r.
    + eapply (trailed_grows w _ [_] [_] [_]); try done.
      * repeat constructor. rewrite Hc. apply in_or_app. right. by left.
      * repeat constructor. rewrite Hu, map_app. apply in_or_app. right. by left.
      * repeat constructor. rewrite Hu, map_app. apply in_or_app. right. by left.
  - destruct (signups w !! n) as [evt|] eqn:Hn; [|done].
    eapply (trailed_grows w _ [] [_] []); rewrite ?app_nil_r; try done.
    repeat constructor. simpl.
    destruct Hw as (Ha & _). unfold announced in Ha. rewrite Forall_forall in Ha.
    apply list_elem_of_lookup_2, Ha in Hn.
    apply in_map_iff in Hn as (r & [= _ <-] & Hr). by apply in_map.
  - by rewrite DeployedFacts.job_world.
  - done.
Qed.

Lemma run_ops_trailed ops (w : World G) : trailed w -> trailed (run_ops next_id ops w).
Proof.
  revert w. induction ops as [|op ops IH]; intros w Hw; [done|].
  simpl. by apply IH, step_trailed.
Qed.

Lemma empty_trailed g t : trailed (empty_world (G := G) g t).
Proof. repeat split; constructor. Qed.

End Trail.

End TrailFacts.

Section Trails.
Import Db TrailFacts.
Context {G : Type} (next_id : G -> string * G).

(** X13: every event on the topic names a stored user.  In every history
    that starts empty, each published event carries the identifier and the
    email of one stored row: the handler publishes only what [create] has
    stored, and nothing removes a row. *)
Theorem published_events_name_stored_users g t0 ops :
  Forall (fun evt =>
            exists row, In row (users (run_ops next_id ops (empty_world g t0))) /\
                        row_id row = userID evt /\ row_email row = evt_email evt)
         (signups (run_ops next_id ops (empty_world g t0))).
Proof.
  destruct (run_ops_trailed next_id ops _ (empty_trailed g t0)) as (Ha & _).
  eapply Forall_impl; [exact Ha|]. intros evt Hin. simpl in Hin.
  apply in_map_iff in Hin as (row & [= <- <-] & Hrow). by exists row.
Qed.

(** X14: every stored user was welcomed, and nobody else.  In every history
    that starts empty, each stored row has a line on the console to its
    email and by its name, and each line on the console went to a stored
    email. *)
Theorem stored_users_were_welcomed g t0 ops :
  Forall (fun r => In {| log_to := row_email r; log_name := row_name r |}
                      (console (run_ops next_id ops (empty_world g t0))))
         (users (run_ops next_id ops (empty_world g t0))) /\
  Forall (fun l => In (log_to l)
                      (map row_email (users (run_ops next_id ops (empty_world g t0)))))
         (console (run_ops next_id ops (empty_world g t0))).
Proof.
  destruct (run_ops_trailed next_id ops _ (empty_trailed g t0)) as (_ & Hw & Hd).
  done.
Qed.

End Trails.

(* ===================================================================== *)
(** * Further properties: the subscriber                                  *)
(* ===================================================================== *)

Section Subscriber.
Context {G : Type} (next_id : G -> string * G).

(** X15: the subscriber is not idempotent.  Each delivery of a published
    event prints one more welcome, without a name, to the email of the
    event; delivered [k] times (the topic delivers at least once) it prints
    [k] of them, and it changes nothing else of the world.  A position at
    which the topic holds no event delivers nothing. *)
Theorem every_delivery_sends_a_welcome n k (w : World G) :
  run_ops next_id (repeat (Deliver n) k) w =
  match signups w !! n with
  | Some evt =>
      set_console
        (console w ++ repeat {| log_to := evt_email evt; log_name := None |} k) w
  | None => w
  end.
Proof.
  revert w. induction k as [|k IH]; intros w; simpl.
  - destruct (signups w !! n); [|done]. rewrite app_nil_r. by destruct w.
  - rewrite IH. destruct (signups w !! n) as [evt|] eqn:Hn; simpl; rewrite Hn; [|done].
    unfold set_console. simpl. by rewrite <- app_assoc.
Qed.

End Subscriber.

(* ===================================================================== *)
(** * Further properties: the seed script                                 *)
(* ===================================================================== *)

Module SeedFacts.
Import Db DbFacts AdapterFacts InvariantFacts Seed.

Lemma insert_skipping_prefix vals now : forall t t',
  insert_skipping vals now t = Some t' -> t `prefix_of` t'.
Proof.
  induction vals as [|u vals IH]; intros t t'; simpl.
  - by intros [= ->].
  - destruct (existsb _ t); [apply IH|].
    destruct (existsb _ t); [discriminate|].
    intros Hrest%IH. etrans; [|exact Hrest]. by apply prefix_app_r.
Qed.

Lemma prefix_emails (t t' : list Row) e :
  t `prefix_of` t' -> In e (map row_email t) -> In e (map row_email t').
Proof. intros [k ->] Hin. rewrite map_app. apply in_or_app. by left. Qed.

Lemma insert_skipping_covers vals now : forall t t',
  insert_skipping vals now t = Some t' ->
  forall u, In u vals -> In (email u) (map row_email t').
Proof.
  induction vals as [|u vals IH]; intros t t'; simpl; [by intros _ u []|].
  destruct (existsb (fun r => String.eqb (row_email r) (email u)) t) eqn:Hem.
  - intros Hrest v [<- | Hv]; [|by eapply IH].
    apply (prefix_emails t); [by eapply insert_skipping_prefix|].
    apply existsb_exists in Hem as (r & Hr & Heq%String.eqb_eq).
    rewrite <- Heq. by apply in_map.
  - destruct (existsb (fun r => String.eqb (row_id r) (id u)) t); [discriminate|].
    intros Hrest v [<- | Hv]; [|exact (IH _ _ Hrest v Hv)].
    eapply prefix_emails; [exact (insert_skipping_prefix _ _ _ _ Hrest)|].
    rewrite map_app. apply in_or_app. right. by left.
Qed.

Lemma insert_skipping_all_stored vals now : forall t,
  (forall u, In u vals -> In (email u) (map row_email t)) ->
  insert_skipping vals now t = Some t.
Proof.
  induction vals as [|u vals IH]; intros t Hall; simpl; [done|].
  destruct (existsb (fun r => String.eqb (row_email r) (email u)) t) eqn:Hem.
  - apply IH. intros v Hv. apply Hall. by right.
  - apply existsb_email_iff in Hem. destruct Hem. apply Hall. by left.
Qed.

(** Whether the statement aborts does not depend on the clock. *)
Lemma insert_skipping_clock vals n1 n2 : forall t1 t2,
  map (fun r => (row_id r, row_email r)) t1 = map (fun r => (row_id r, row_email r)) t2 ->
  insert_skipping vals n1 t1 = None -> insert_skipping vals n2 t2 = None.
Proof.
  assert (forall (t1 t2 : list Row),
            map (fun r => (row_id r, row_email r)) t1
            = map (fun r => (row_id r, row_email r)) t2 ->
            (forall e, existsb (fun r => String.eqb (row_email r) e) t1
                       = existsb (fun r => String.eqb (row_email r) e) t2) /\
            (forall i, existsb (fun r => String.eqb (row_id r) i) t1
                       = existsb (fun r => String.eqb (row_id r) i) t2)) as Hkeys.
  { induction t1 as [|r1 t1 IH]; intros [|r2 t2]; simpl; try done.
    intros [= Hi He Hrest]. destruct (IH t2 Hrest) as [IHe IHi].
    split; intros x; by rewrite ?Hi, ?He, ?IHe, ?IHi. }
  induction vals as [|u vals IH]; intros t1 t2 Hsame; simpl; [done|].
  destruct (Hkeys t1 t2 Hsame) as [He Hi]. rewrite (He (email u)), (Hi (id u)).
  destruct (existsb _ t2); [by apply IH|].
  destruct (existsb _ t2); [done|].
  apply IH. rewrite !map_app. simpl. by rewrite Hsame.
Qed.

Lemma insert_skipping_unique vals now : forall t t',
  insert_skipping vals now t = Some t' ->
  NoDup (map row_id t) /\ NoDup (map row_email t) ->
  NoDup (map row_id t') /\ NoDup (map row_email t').
Proof.
  induction vals as [|u vals IH]; intros t t'; simpl; [by intros [= ->]|].
  destruct (existsb (fun r => String.eqb (row_email r) (email u)) t) eqn:Hem;
    [apply IH|].
  destruct (existsb (fun r => String.eqb (row_id r) (id u)) t) eqn:Hid; [discriminate|].
  intros Hrest [Hi He]. apply (IH _ _ Hrest).
  apply existsb_email_iff in Hem. apply existsb_id_false in Hid.
  rewrite !map_app. simpl. split; by apply NoDup_snoc.
Qed.

Lemma insert_skipping_first u vals now (t t' : list Row) :
  insert_skipping (u :: vals) now t = Some t' ->
  ~ In (email u) (map row_email t) ->
  (t ++ [mkRow (id u) (email u) (name u) (verified u) now])%list `prefix_of` t'.
Proof.
  simpl. intros Hrun Hnew%existsb_email_iff. rewrite Hnew in Hrun.
  destruct (existsb (fun r => String.eqb (row_id r) (id u)) t); [discriminate|].
  by eapply insert_skipping_prefix.
Qed.

End SeedFacts.

Section SeedScript.
Import Regex RegisterUser Db DbFacts AdapterFacts InvariantFacts DeployedRuns Seed SeedFacts.
Context {G : Type} (next_id : G -> string * G).

(** X16: the seed script can be run again.  A second run, at any later
    time, ends with the exit code and the lines of the first and leaves the
    world as the first run left it: after a first run that went through both
    emails are stored and both rows are skipped, after one that failed the
    same identifier is still in the way. *)
Theorem seed_is_idempotent (w : World G) t :
  Seed.main (set_now t (Seed.main w).1.2)
  = ((Seed.main w).1.1, set_now t (Seed.main w).1.2, (Seed.main w).2).
Proof.
  unfold Seed.main, insert_on_conflict_do_nothing.
  generalize sample_users. intros vals.
  destruct (insert_skipping vals (now w) (users w)) as [t'|] eqn:Hrun; simpl.
  - rewrite (insert_skipping_all_stored vals t t')
      by (by apply (insert_skipping_covers _ _ _ _ Hrun)).
    done.
  - by rewrite (insert_skipping_clock vals (now w) t (users w) (users w) eq_refl Hrun).
Qed.

(** X17: the seed script only adds.  The table before it is a prefix of the
    table after it, the rest of the world is untouched, a table without
    repeated identifiers and emails stays so, and a run that exits with 1
    has changed nothing at all. *)
Theorem seed_only_adds (w : World G) :
  users w `prefix_of` users (Seed.main w).1.2 /\
  set_users (users w) (Seed.main w).1.2 = w /\
  (NoDup (map row_id (users w)) /\ NoDup (map row_email (users w)) ->
   NoDup (map row_id (users (Seed.main w).1.2)) /\
   NoDup (map row_email (users (Seed.main w).1.2))) /\
  ((Seed.main w).1.1 = 1%Z -> (Seed.main w).1.2 = w) /\
  ((Seed.main w).1.1 = 0%Z \/ (Seed.main w).1.1 = 1%Z).
Proof.
  unfold Seed.main, insert_on_conflict_do_nothing.
  generalize sample_users. intros vals.
  destruct (insert_skipping vals (now w) (users w)) as [t'|] eqn:Hrun; simpl.
  - repeat split; try (by destruct w); try discriminate; auto.
    + by eapply insert_skipping_prefix.
    + by eapply insert_skipping_unique.
    + by eapply insert_skipping_unique.
  - repeat split; try (by destruct w); auto; by destruct H.
Qed.

(** X18: a seeded address cannot be registered.  After a run of the seed
    script that exits with 0, every input whose email normalizes to one of
    the two seeded emails is refused by [exec] with EMAIL_TAKEN, and nothing
    is written. *)
Theorem seeded_emails_are_taken (w : World G) input :
  (Seed.main w).1.1 = 0%Z ->
  In (normalize (input_email input)) (map email sample_users) ->
  run (ports (deployed next_id)) (exec input) (Seed.main w).1.2
  = (Threw (Error "EMAIL_TAKEN"), (Seed.main w).1.2,
     [Called (FindByEmail (normalize (input_email input))) None]).
Proof.
  unfold Seed.main, insert_on_conflict_do_nothing.
  destruct (insert_skipping sample_users (now w) (users w)) as [t'|] eqn:Hrun;
    cbn [fst snd]; [|discriminate].
  intros _ Hseeded.
  assert (full_match email_pattern (normalize (input_email input)) = true) as Hfmt.
  { destruct Hseeded as [<- | [<- | []]]; reflexivity. }
  assert (Pg.texts_error [normalize (input_email input)] = None) as Hacc.
  { destruct Hseeded as [<- | [<- | []]]; reflexivity. }
  assert (In (normalize (input_email input)) (map row_email t')) as Hstored.
  { apply in_map_iff in Hseeded as (u & <- & Hu).
    by apply (insert_skipping_covers _ _ _ _ Hrun). }
  destruct (next_id (ids w)) as [i g] eqn:Hid.
  erewrite (deployed_exec_run next_id input _ i g); [|exact Hid].
  rewrite Hfmt, Hacc. simpl.
  destruct (select_by_email _ t') eqn:Hsel; [done|].
  by apply select_by_email_none in Hsel.
Qed.

(** X19: a seeded user stays verified.  When the seed script exits with 0
    and the email of its first row was not stored before, the row it wrote
    for that email, with [verified = true], is in the table after every
    history of the service: no registration and no run of the daily job
    turns the flag off. *)
Theorem seeded_user_stays_verified (w : World G) ops :
  (Seed.main w).1.1 = 0%Z ->
  ~ In "alice@example.com" (map row_email (users w)) ->
  In (mkRow "11111111-1111-1111-1111-111111111111" "alice@example.com"
            (Some "Alice") true (now w))
     (users (run_ops next_id ops (Seed.main w).1.2)).
Proof.
  unfold Seed.main, insert_on_conflict_do_nothing.
  destruct (insert_skipping sample_users (now w) (users w)) as [t'|] eqn:Hrun;
    cbn [fst snd]; [|discriminate].
  intros _ Hnew. unfold sample_users in Hrun.
  apply insert_skipping_first in Hrun; [|exact Hnew]. cbn [id email name verified] in Hrun.
  assert ((users w ++ [mkRow "11111111-1111-1111-1111-111111111111"
                             "alice@example.com" (Some "Alice") true (now w)])%list
          `prefix_of` users (run_ops next_id ops (set_users t' w))) as [k ->].
  { apply (run_ops_preserves next_id (fun v => _ `prefix_of` users v)); try done.
    intros c v. apply service_call_prefix. }
  apply in_or_app. left. apply in_or_app. right. by left.
Qed.

End SeedScript.

Section SeedWitnesses.
Import RegisterUser.

Lemma seeded_emails_are_taken_witness :
  result (run (ports (deployed Test.fresh_id))
              (exec {| input_email := " Alice@Example.com"; input_name := None |})
              (Seed.main (empty_world 0%nat 0)).1.2)
  = Threw (Error "EMAIL_TAKEN").
Proof.
  exact (f_equal result
           (seeded_emails_are_taken Test.fresh_id (empty_world 0%nat 0)
              {| input_email := " Alice@Example.com"; input_name := None |}
              eq_refl (or_introl eq_refl))).
Defined.

Lemma seeded_user_stays_verified_witness :
  In (Db.mkRow "11111111-1111-1111-1111-111111111111" "alice@example.com"
               (Some "Alice") true 0)
     (users (run_ops Test.fresh_id
               [Post {| input_email := "c@d.com"; input_name := None |}; Tick 90000000000; Sweep]
               (Seed.main (empty_world 0%nat 0)).1.2)).
Proof.
  exact (seeded_user_stays_verified Test.fresh_id (empty_world 0%nat 0)
           [Post {| input_email := "c@d.com"; input_name := None |};
            Tick 90000000000; Sweep]
           eq_refl (fun H => H)).
Defined.

End SeedWitnesses.

(* ===================================================================== *)
(** * Further properties: the fake against the adapter, and a race        *)
(* ===================================================================== *)

Section FakeAndRace.
Import Regex RegisterUser Db DbFacts AdapterFacts DeployedRuns ProgFacts.
Context {G : Type} (next_id : G -> string * G).


(** ... and where the server refuses a text the fake has no such scruple:
    with U+0000 in the name the fake registers and the adapter throws. *)
Example fake_takes_what_the_server_refuses :
  let input := {| input_email := "a@b.c";
                  input_name := Some (String "A" (String "000" "l")) |} in
  result (run (ports Test.deps) (exec input) ∅)
  = Returned (mkUser "id-1" "a@b.c" (Some (String "A" (String "000" "l"))) false) /\
  result (run (ports (deployed Test.next_id)) (exec input) (empty_world tt 0))
  = Threw (DatabaseError "22021").
Proof. split; reflexivity. Qed.


End FakeAndRace.

Section FakeAndRaceWitnesses.
Import RegisterUser.



End FakeAndRaceWitnesses.

(* ===================================================================== *)
(** * Witnesses of properties stated further up                           *)
(* ===================================================================== *)

Section LateWitnesses.
Import Regex RegisterUser.

Lemma test_exec_registers_witness :
  world (run (ports Test.deps)
             (exec {| input_email := " C@D.org "; input_name := None |})
             {[ "a@b.com" := mkUser "id-1" "a@b.com" None false ]})
  = <[ "c@d.org" := mkUser "id-1" "c@d.org" None false ]>
      {[ "a@b.com" := mkUser "id-1" "a@b.com" None false ]}.
Proof.
  exact (f_equal world
           (test_exec_registers {| input_email := " C@D.org "; input_name := None |}
              {[ "a@b.com" := mkUser "id-1" "a@b.com" None false ]}
              eq_refl eq_refl)).
Defined.

Lemma register_propagates_errors_witness :
  calls (trace (run (Http.service Test.next_id)
                    (Http.register {| input_email := "c@d.com"; input_name := None |})
                    (mkWorld [Db.mkRow "id-1" "a@b.com" None false 0] 3 [] [] tt)))
  = [Port (FindByEmail "c@d.com"); Port NewId;
     Port (Create (mkUser "id-1" "c@d.com" None false))].
Proof.
  exact (proj2 (proj2
           (register_propagates_errors (Http.service Test.next_id)
              {| input_email := "c@d.com"; input_name := None |}
              (mkWorld [Db.mkRow "id-1" "a@b.com" None false 0] 3 [] [] tt)
              (UniqueViolation "users_pkey") eq_refl))).
Defined.

End LateWitnesses.
